(** * noteDisplay.js: a shallow embedding and its verified properties

    The module draws the notes of a note sequence as draggable blocks and
    turns a drop into a [moveNote] request.  Its three classes are embedded
    in source order of dependency: [LinearScaler], [NoteBlock] (with the
    process-wide id generator) and [NoteDisplay].

    Numbers.  A JavaScript number is modelled by [jsnum]: an exact rational,
    one of the two infinities, or NaN.  Rounding of binary floating point
    and the sign of zero are left out, so arithmetic on finite values is the
    arithmetic of the rationals; integers are unbounded.

    Objects.  A plain object used as a map is a [gmap] of its own
    properties, read and written through [Object.prototype] where the
    source reads or writes a property by a computed name; a [Map] keyed by
    numbers is a [gmap] on [jsnum].  Mutation is explicit state passing: a method takes the
    display, and the state of the id generator when it constructs blocks,
    and returns them. *)

From Stdlib Require Import Ascii String QArith Qcanon DecimalString DecimalNat.
From stdpp Require Import gmap strings list fin_maps.

Local Open Scope string_scope.

(** ** JavaScript numbers *)

Inductive jsnum : Type :=
  | Fin (q : Qc)
  | PInf
  | NInf
  | NaN.

Global Instance jsnum_eq_dec : EqDecision jsnum.
Proof. solve_decision. Defined.

(** A property read yields a number or [undefined] ([None]). *)
Abbreviation undefined := (@None jsnum).

(** ToNumber on a number-or-undefined value: [undefined] becomes NaN. *)
Definition ToNumber (v : option jsnum) : jsnum :=
  match v with
  | Some n => n
  | None => NaN
  end.

Definition of_Z (z : Z) : jsnum := Fin (Qc_of_Z z).
Definition of_nat (n : nat) : jsnum := of_Z (Z.of_nat n).
Global Arguments of_Z : simpl never.
Global Arguments of_nat : simpl never.

Definition Qc_sgn (q : Qc) : comparison := (q ?= 0)%Qc.

(** [x + y] *)
Definition js_add (x y : jsnum) : jsnum :=
  match x, y with
  | NaN, _ | _, NaN => NaN
  | PInf, NInf | NInf, PInf => NaN
  | PInf, _ | _, PInf => PInf
  | NInf, _ | _, NInf => NInf
  | Fin a, Fin b => Fin (a + b)
  end.

Definition js_neg (x : jsnum) : jsnum :=
  match x with
  | Fin a => Fin (- a)
  | PInf => NInf
  | NInf => PInf
  | NaN => NaN
  end.

(** [x - y] *)
Definition js_sub (x y : jsnum) : jsnum :=
  match x, y with
  | Fin a, Fin b => Fin (a - b)
  | _, _ => js_add x (js_neg y)
  end.

(** The infinity whose sign is the product of the signs of a finite
    factor and of an infinite one; zero times infinity is NaN. *)
Definition signed_inf (s : comparison) (positive : bool) : jsnum :=
  match s with
  | Eq => NaN
  | Gt => if positive then PInf else NInf
  | Lt => if positive then NInf else PInf
  end.

(** [x * y] *)
Definition js_mul (x y : jsnum) : jsnum :=
  match x, y with
  | NaN, _ | _, NaN => NaN
  | Fin a, Fin b => Fin (a * b)
  | Fin a, PInf | PInf, Fin a => signed_inf (Qc_sgn a) true
  | Fin a, NInf | NInf, Fin a => signed_inf (Qc_sgn a) false
  | PInf, PInf | NInf, NInf => PInf
  | PInf, NInf | NInf, PInf => NInf
  end.

(** [x / y].  A finite nonzero value over zero is an infinity (zero counts
    as positive zero), zero over zero is NaN. *)
Definition js_div (x y : jsnum) : jsnum :=
  match x, y with
  | NaN, _ | _, NaN => NaN
  | Fin a, Fin b =>
      if decide (b = 0%Qc) then signed_inf (Qc_sgn a) true else Fin (a / b)
  | Fin _, (PInf | NInf) => Fin 0
  | PInf, Fin b => if decide (b < 0)%Qc then NInf else PInf
  | NInf, Fin b => if decide (b < 0)%Qc then PInf else NInf
  | (PInf | NInf), (PInf | NInf) => NaN
  end.

(** [Math.abs] *)
Definition Math_abs (x : jsnum) : jsnum :=
  match x with
  | Fin a => Fin (if decide (a < 0)%Qc then - a else a)
  | PInf | NInf => PInf
  | NaN => NaN
  end.

(** ** LinearScaler *)

(** The description of one unit: [{zero: ..., scaling: ...}]. *)
Record UnitScale : Type := { zero : jsnum; scaling : jsnum }.

(** What the property read [this.units[unit]] finds. *)
Inductive unit_entry : Type :=
  | OwnUnit (u : UnitScale)
  | Inherited
  | Missing.

(** The names every plain object inherits from [Object.prototype]: its
    methods, and the accessor [__proto__], whose getter returns
    [Object.prototype] itself. *)
Definition Object_prototype : list string :=
  [ "constructor"; "hasOwnProperty"; "isPrototypeOf"; "propertyIsEnumerable";
    "toLocaleString"; "toString"; "valueOf";
    "__defineGetter__"; "__defineSetter__";
    "__lookupGetter__"; "__lookupSetter__"; "__proto__" ].

(** [o[name] = v] for a number [v], on an object that a conversion created
    as [{}] and only writes in this way: the property [name] of [o] is
    set, except under the name [__proto__], where the assignment goes to
    the setter inherited from [Object.prototype], which ignores a number
    and creates no property. *)
Definition assign (name : string) (v : jsnum) (o : gmap string jsnum)
  : gmap string jsnum :=
  if decide (name = "__proto__") then o else <[name := v]> o.

(** A [LinearScaler] holds [this.units], a plain object whose own
    properties are the configured units. *)
Record LinearScaler : Type := { units : gmap string UnitScale }.

(** [this.units[unit]]: an own property, else one found on the prototype. *)
Definition units_get (this : LinearScaler) (unit : string) : unit_entry :=
  match units this !! unit with
  | Some u => OwnUnit u
  | None => if decide (unit ∈ Object_prototype) then Inherited else Missing
  end.

(** [this.units[unit].zero] and [.scaling], given that the entry is not
    [undefined]: what is found on [Object.prototype] has neither property. *)
Definition entry_zero (e : unit_entry) : option jsnum :=
  match e with OwnUnit u => Some (zero u) | _ => undefined end.
Definition entry_scaling (e : unit_entry) : option jsnum :=
  match e with OwnUnit u => Some (scaling u) | _ => undefined end.

(** One turn of the loop of [outputValuesFor] for the property [unit] of
    [inputValues], whose value is [v]. *)
Definition outputValuesFor_step (this : LinearScaler)
    (unit : string) (v : jsnum) (outputValues : gmap string jsnum)
  : gmap string jsnum :=
  match units_get this unit with
  | Missing => outputValues
  | e =>
      assign unit
        (js_add (ToNumber (entry_zero e)) (js_mul (ToNumber (entry_scaling e)) v))
        outputValues
  end.

(** [outputValuesFor(inputValues)] *)
Definition outputValuesFor (this : LinearScaler)
    (inputValues : gmap string jsnum) : gmap string jsnum :=
  map_fold (outputValuesFor_step this) ∅ inputValues.

(** One turn of the loop of [inputValuesFor]. *)
Definition inputValuesFor_step (this : LinearScaler)
    (unit : string) (v : jsnum) (inputValues : gmap string jsnum)
  : gmap string jsnum :=
  match units_get this unit with
  | Missing => inputValues
  | e =>
      assign unit
        (js_div (js_sub v (ToNumber (entry_zero e))) (ToNumber (entry_scaling e)))
        inputValues
  end.

(** [inputValuesFor(outputValues)] *)
Definition inputValuesFor (this : LinearScaler)
    (outputValues : gmap string jsnum) : gmap string jsnum :=
  map_fold (inputValuesFor_step this) ∅ outputValues.

(** The converter built by the constructor of [NoteDisplay]. *)
Definition display_converter : LinearScaler :=
  {| units := {[ "beat" := {| zero := of_Z 40; scaling := of_Z 40 |};
                 "pitch" := {| zero := of_Z 400; scaling := of_Z (-20) |} ]} |}.

(** ** Strings and numbers: [String(id)] and [Number(string)]

    Strings are taken over the ASCII characters. *)

(** ToString on a block id, a natural number: its decimal digits.  (Ids
    stay far below 10^21, from where a number is printed with an
    exponent.) *)
Definition ToString (n : nat) : string :=
  NilEmpty.string_of_uint (Nat.to_uint n).

(** StrWhiteSpaceChar: TAB, LF, VT, FF, CR and SP. *)
Definition is_whitespace (c : ascii) : bool :=
  let n := nat_of_ascii c in
  ((9 <=? n)%nat && (n <=? 13)%nat) || (n =? 32)%nat.

Fixpoint trim_left (s : string) : string :=
  match s with
  | String c s' => if is_whitespace c then trim_left s' else s
  | EmptyString => EmptyString
  end.

Fixpoint trim_right (s : string) : string :=
  match s with
  | EmptyString => EmptyString
  | String c s' =>
      match trim_right s' with
      | EmptyString => if is_whitespace c then EmptyString else String c EmptyString
      | t => String c t
      end
  end.

Definition trim (s : string) : string := trim_right (trim_left s).

(** The value of a digit in radix up to 16. *)
Definition digit_value (c : ascii) : option N :=
  let n := N_of_ascii c in
  if ((48 <=? n) && (n <=? 57))%N then Some (n - 48)%N
  else if ((97 <=? n) && (n <=? 102))%N then Some (n - 87)%N
  else if ((65 <=? n) && (n <=? 70))%N then Some (n - 55)%N
  else None.

Definition is_digit (c : ascii) : bool :=
  let n := N_of_ascii c in ((48 <=? n) && (n <=? 57))%N.

(** The number written by the digits [s] in [radix], after the digits
    already read, whose value is [acc]; [None] at a character that is not a
    digit of the radix. *)
Fixpoint digits_value (radix : N) (s : string) (acc : N) : option N :=
  match s with
  | EmptyString => Some acc
  | String c s' =>
      match digit_value c with
      | Some d => if (d <? radix)%N then digits_value radix s' (acc * radix + d)%N
                  else None
      | None => None
      end
  end.

(** The longest prefix of decimal digits, and what follows it. *)
Fixpoint span_digits (s : string) : string * string :=
  match s with
  | String c s' =>
      if is_digit c then let '(d, r) := span_digits s' in (String c d, r)
      else (EmptyString, s)
  | EmptyString => (EmptyString, EmptyString)
  end.

Definition Qc_of_N (n : N) : Qc := Qc_of_Z (Z.of_N n).

(** Ten to the power [e]. *)
Definition pow10 (e : Z) : Qc :=
  if (0 <=? e)%Z then (Qc_of_Z 10 ^ Z.to_nat e)%Qc
  else (/ (Qc_of_Z 10 ^ Z.to_nat (- e)))%Qc.

(** ExponentPart after its [e]: an optional sign and at least one digit. *)
Definition exponent_value (s : string) : option Z :=
  let '(negative, ds) :=
    match s with
    | String "+" r => (false, r)
    | String "-" r => (true, r)
    | _ => (false, s)
    end in
  match ds with
  | EmptyString => None
  | _ => n ← digits_value 10 ds 0;
         Some (if negative : bool then (- Z.of_N n)%Z else Z.of_N n)
  end.

(** StrUnsignedDecimalLiteral other than [Infinity]:
    digits, an optional fraction, an optional exponent. *)
Definition unsigned_decimal (s : string) : option Qc :=
  let '(ip, r1) := span_digits s in
  iv ← digits_value 10 ip 0;
  '(mantissa, r2) ←
    match r1 with
    | String "." r =>
        let '(fp, r') := span_digits r in
        fv ← digits_value 10 fp 0;
        if decide (ip = EmptyString ∧ fp = EmptyString) then None
        else
          let scale := pow10 (- Z.of_nat (String.length fp)) in
          Some ((Qc_of_N iv + Qc_of_N fv * scale)%Qc, r')
    | _ => if decide (ip = EmptyString) then None else Some (Qc_of_N iv, r1)
    end;
  match r2 with
  | EmptyString => Some mantissa
  | String ("e" | "E") r => e ← exponent_value r; Some (mantissa * pow10 e)%Qc
  | _ => None
  end.

Definition StrUnsignedDecimalLiteral (s : string) : option jsnum :=
  if decide (s = "Infinity") then Some PInf else Fin <$> unsigned_decimal s.

(** NonDecimalIntegerLiteral after its prefix: at least one digit. *)
Definition non_decimal (radix : N) (s : string) : option jsnum :=
  match s with
  | EmptyString => None
  | _ => n ← digits_value radix s 0; Some (Fin (Qc_of_N n))
  end.

(** StrNumericLiteral *)
Definition StrNumericLiteral (s : string) : option jsnum :=
  match s with
  | String "0" (String ("x" | "X") r) => non_decimal 16 r
  | String "0" (String ("o" | "O") r) => non_decimal 8 r
  | String "0" (String ("b" | "B") r) => non_decimal 2 r
  | String "+" r => StrUnsignedDecimalLiteral r
  | String "-" r => js_neg <$> StrUnsignedDecimalLiteral r
  | _ => StrUnsignedDecimalLiteral s
  end.

(** [Number(s)] on a string (StringToNumber): white space is trimmed, the
    empty string is zero, a numeric literal is its value, anything else is
    NaN. *)
Definition Number (s : string) : jsnum :=
  match trim s with
  | EmptyString => of_Z 0
  | t => default NaN (StrNumericLiteral t)
  end.

(** A number as the key of a [Map]: SameValueZero is equality on [jsnum]
    (NaN equals itself, and there is one zero). *)
Global Instance jsnum_countable : Countable jsnum.
Proof.
  refine (inj_countable'
    (λ x, match x with
          | Fin q => inl q | PInf => inr 0%nat | NInf => inr 1%nat | NaN => inr 2%nat
          end)
    (λ y, match y with
          | inl q => Fin q | inr 0%nat => PInf | inr 1%nat => NInf | inr _ => NaN
          end) _).
  by intros [].
Defined.

(** ** The host: elements, listeners and the drag payload *)

Module DOM.

(** The string [value + unit] of a style length, kept as its two parts:
    the number (or [undefined]) that is printed, and the unit suffix. *)
Record Length : Type := { magnitude : option jsnum; suffix : string }.

(** The style properties the module writes, each holding what was assigned
    to it: the empty string or [None] when unset.  How the host reads the
    assigned string as CSS is not modelled. *)
Record Style : Type := {
  position : string;
  height : option Length;
  width : option Length;
  left : option Length;
  top : option Length;
  background : string
}.

(** The callbacks the module registers, each with the object it is bound
    to: a block is named by its id, and there is one display. *)
Inductive Listener : Type :=
  | dragOverListener
  | dropListener
  | dragListener (block_id : nat).

(** An element: its style, its attributes, its listeners by event type
    and, for the surface, the children appended to it. *)
#[warnings="-register-all"]
Inductive Element : Type :=
  mkElement (style : Style) (attributes : gmap string string)
            (listeners : list (string * Listener)) (children : list Element).

Definition style (e : Element) := let 'mkElement s _ _ _ := e in s.
Definition attributes (e : Element) := let 'mkElement _ a _ _ := e in a.
Definition listeners (e : Element) := let 'mkElement _ _ l _ := e in l.
Definition children (e : Element) := let 'mkElement _ _ _ c := e in c.

(** [document.createElement('div')] *)
Definition createElement_div : Element :=
  mkElement {| position := EmptyString; height := None; width := None; left := None;
               top := None; background := EmptyString |} ∅ [] [].

(** [e.style.position = p] *)
Definition set_position (p : string) (e : Element) : Element :=
  let st := style e in
  mkElement {| position := p; height := height st; width := width st;
               left := left st; top := top st; background := background st |}
            (attributes e) (listeners e) (children e).

(** The four assignments of a length and the one of the background that
    follow [e.style.position = ...] in the constructor of a block. *)
Definition set_box (h w l t : Length) (bg : string) (e : Element) : Element :=
  mkElement {| position := position (style e); height := Some h; width := Some w;
               left := Some l; top := Some t; background := bg |}
            (attributes e) (listeners e) (children e).

(** [e.setAttribute(name, value)] *)
Definition setAttribute (name value : string) (e : Element) : Element :=
  mkElement (style e) (<[name := value]> (attributes e)) (listeners e) (children e).

(** [e.addEventListener(type, listener, false)] *)
Definition addEventListener (type : string) (l : Listener) (e : Element) : Element :=
  mkElement (style e) (attributes e) (listeners e ++ [(type, l)]) (children e).

(** [e.appendChild(child)] *)
Definition appendChild (child : Element) (e : Element) : Element :=
  mkElement (style e) (attributes e) (listeners e) (children e ++ [child]).

(** The drag data store: a string per format. *)
Record DataTransfer : Type := { data : gmap string string }.

(** [dataTransfer.getData(format)]: the empty string when the format
    holds no data. *)
Definition getData (dt : DataTransfer) (format : string) : string :=
  default EmptyString (data dt !! format).

(** [dataTransfer.setData(format, value)], [value] already a string. *)
Definition setData (dt : DataTransfer) (format value : string) : DataTransfer :=
  {| data := <[format := value]> (data dt) |}.

(** [dataTransfer.types] *)
Definition types (dt : DataTransfer) : list string := (map_to_list (data dt)).*1.

Record DragEvent : Type := {
  dataTransfer : DataTransfer;
  clientX : jsnum;
  defaultPrevented : bool
}.

(** [event.preventDefault()] *)
Definition preventDefault (e : DragEvent) : DragEvent :=
  {| dataTransfer := dataTransfer e; clientX := clientX e;
     defaultPrevented := true |}.

End DOM.

(** ** Notes and the sequence that owns them *)

Module Note.
Record t : Type := { start : jsnum; length : jsnum; number : jsnum }.
End Note.

(** The note sequence is a collaborator outside the module; the display
    uses its two methods.  A method may change the sequence. *)
Class NoteSequence (Seq : Type) : Type := {
  (** [getNotes({startBeat, endBeat})] *)
  getNotes : Seq → jsnum → jsnum → list Note.t * Seq;
  (** [moveNote({note, newStart})]; either argument may be [undefined]. *)
  moveNote : Seq → option Note.t → option jsnum → Seq
}.

(** ** NoteBlock *)

Module NoteBlock.

(** The generator object: not yet started, or suspended at its [yield]
    with the local variable [i]. *)
Inductive generator : Type :=
  | NotStarted
  | Suspended (i : nat).

(** [generator.next().value]: run to the next [yield i]. *)
Definition next (g : generator) : nat * generator :=
  match g with
  | NotStarted => (0, Suspended 0)
  | Suspended i => (S i, Suspended (S i))
  end.

(** [NoteBlock.idGenerator], as the module leaves it when it is loaded. *)
Definition idGenerator : generator := NotStarted.

(** [NoteBlock.nextId()], on the current state of [NoteBlock.idGenerator]. *)
Definition nextId (g : generator) : nat * generator := next g.

(** The argument of the constructor. *)
Record args : Type := {
  top : option jsnum;
  left : option jsnum;
  height : option jsnum;
  width : option jsnum;
  unit : string
}.

Record t : Type := { id : nat; element : DOM.Element }.

(** [new NoteBlock({top, left, height, width, unit})] *)
Definition new (a : args) (g : generator) : t * generator :=
  let '(i, g') := nextId g in
  let len v := {| DOM.magnitude := v; DOM.suffix := unit a |} in
  let el :=
    DOM.addEventListener "dragstart" (DOM.dragListener i)
      (DOM.setAttribute "draggable" "true"
         (DOM.set_box (len (height a)) (len (width a)) (len (left a)) (len (top a))
            "blue"
            (DOM.set_position "absolute" DOM.createElement_div))) in
  ({| id := i; element := el |}, g').

(** [displayOn(surface)] *)
Definition displayOn (this : t) (surface : DOM.Element) : DOM.Element :=
  DOM.appendChild (element this) surface.

(** [dragListener(e)]: the id is stored as a string. *)
Definition dragListener (this : t) (e : DOM.DragEvent) : DOM.DragEvent :=
  {| DOM.dataTransfer :=
       DOM.setData (DOM.dataTransfer e) "application/note-id" (ToString (id this));
     DOM.clientX := DOM.clientX e;
     DOM.defaultPrevented := DOM.defaultPrevented e |}.

(** Blocks constructed one after the other. *)
Fixpoint new_all (l : list args) (g : generator) : list t * generator :=
  match l with
  | [] => ([], g)
  | a :: l' =>
      let '(b, g') := new a g in
      let '(bs, g'') := new_all l' g' in
      (b :: bs, g'')
  end.

End NoteBlock.

(** ** NoteDisplay *)

Module NoteDisplay.
Section display.
Context {Seq : Type} `{NoteSequence Seq}.

Record t : Type := {
  surface : DOM.Element;
  sequence : Seq;
  xSize : jsnum;
  ySize : jsnum;
  blocks : gmap jsnum NoteBlock.t;
  notes : gmap jsnum Note.t;
  converter : LinearScaler
}.

(** [addSurfaceListeners()] *)
Definition addSurfaceListeners (s : DOM.Element) : DOM.Element :=
  DOM.addEventListener "drop" DOM.dropListener
    (DOM.addEventListener "dragover" DOM.dragOverListener
       (DOM.addEventListener "dragenter" DOM.dragOverListener s)).

(** [new NoteDisplay({noteSurface, noteSequence, xSize=40, ySize=20})];
    a size that is not passed is [None]. *)
Definition new (noteSurface : DOM.Element) (noteSequence : Seq)
    (xSize ySize : option jsnum) : t :=
  {| surface := addSurfaceListeners (DOM.set_position "relative" noteSurface);
     sequence := noteSequence;
     xSize := default (of_Z 40) xSize;
     ySize := default (of_Z 20) ySize;
     blocks := ∅;
     notes := ∅;
     converter := display_converter |}.

(** The argument [drawNotes] passes to the constructor of the block of
    [note]. *)
Definition block_args (this : t) (note : Note.t) : NoteBlock.args :=
  let startPosition :=
    outputValuesFor (converter this)
      {[ "beat" := Note.start note; "pitch" := Note.number note ]} in
  let endPosition :=
    outputValuesFor (converter this)
      {[ "beat" := js_add (Note.start note) (Note.length note);
         "pitch" := js_add (Note.number note) (of_Z 1) ]} in
  {| NoteBlock.top := startPosition !! "pitch";
     NoteBlock.left := startPosition !! "beat";
     NoteBlock.height :=
       Some (Math_abs (js_sub (ToNumber (endPosition !! "pitch"))
                              (ToNumber (startPosition !! "pitch"))));
     NoteBlock.width :=
       Some (Math_abs (js_sub (ToNumber (endPosition !! "beat"))
                              (ToNumber (startPosition !! "beat"))));
     NoteBlock.unit := "px" |}.

(** The body of the loop of [drawNotes], on the display and the id
    generator. *)
Definition drawNote (st : t * NoteBlock.generator) (note : Note.t)
  : t * NoteBlock.generator :=
  let '(this, g) := st in
  let '(block, g') := NoteBlock.new (block_args this note) g in
  ({| surface := NoteBlock.displayOn block (surface this);
      sequence := sequence this;
      xSize := xSize this;
      ySize := ySize this;
      blocks := <[of_nat (NoteBlock.id block) := block]> (blocks this);
      notes := <[of_nat (NoteBlock.id block) := note]> (notes this);
      converter := converter this |}, g').

(** [drawNotes()] *)
Definition drawNotes (this : t) (g : NoteBlock.generator)
  : t * NoteBlock.generator :=
  let '(ns, seq') := getNotes (sequence this) (of_Z 0) (of_Z 8) in
  foldl drawNote
    ({| surface := surface this; sequence := seq'; xSize := xSize this;
        ySize := ySize this; blocks := blocks this; notes := notes this;
        converter := converter this |}, g)
    ns.

(** [dragOverListener(event)] *)
Definition dragOverListener (event : DOM.DragEvent) : DOM.DragEvent :=
  if decide ("application/note-id" ∈ DOM.types (DOM.dataTransfer event))
  then DOM.preventDefault event else event.

(** [dropListener(event)] *)
Definition dropListener (this : t) (event : DOM.DragEvent) : t :=
  let blockId := Number (DOM.getData (DOM.dataTransfer event) "application/note-id") in
  {| surface := surface this;
     sequence :=
       moveNote (sequence this)
         (notes this !! blockId)
         (inputValuesFor (converter this) {[ "beat" := DOM.clientX event ]} !! "beat");
     xSize := xSize this;
     ySize := ySize this;
     blocks := blocks this;
     notes := notes this;
     converter := converter this |}.

End display.
Global Arguments t Seq : clear implicits.
End NoteDisplay.

(** ** Sequences used to observe the display *)

(** A call the display makes on its sequence. *)
Inductive call : Type :=
  | GetNotes (startBeat endBeat : jsnum)
  | MoveNote (note : option Note.t) (newStart : option jsnum).

(** A sequence together with the calls made on it so far, oldest first. *)
Record Recorded (Seq : Type) : Type := { inner : Seq; calls : list call }.
Global Arguments inner {Seq} _.
Global Arguments calls {Seq} _.

Global Instance Recorded_sequence {Seq} `{NoteSequence Seq} :
    NoteSequence (Recorded Seq) := {
  getNotes r startBeat endBeat :=
    let '(ns, s') := getNotes (inner r) startBeat endBeat in
    (ns, {| inner := s'; calls := calls r ++ [GetNotes startBeat endBeat] |});
  moveNote r note newStart :=
    {| inner := moveNote (inner r) note newStart;
       calls := calls r ++ [MoveNote note newStart] |}
}.

(** A sequence that answers every [getNotes] with the same notes and
    ignores [moveNote]. *)
Record Fixed : Type := { fixed_notes : list Note.t }.

Global Instance Fixed_sequence : NoteSequence Fixed := {
  getNotes s _ _ := (fixed_notes s, s);
  moveNote s _ _ := s
}.

(** ** The states a display goes through *)

Section reachable.
Context {Seq : Type} `{NoteSequence Seq}.

(** The id [i] has been handed out by the generator in state [g]. *)
Definition issued (g : NoteBlock.generator) (i : nat) : Prop :=
  match g with
  | NoteBlock.NotStarted => False
  | NoteBlock.Suspended n => (i ≤ n)%nat
  end.

(** One step of a process that holds a display: a call of one of its two
    methods, or a step of the rest of the page, which may have blocks
    constructed for other displays and change the surface and the sequence
    it shares with this one. *)
Inductive step :
  NoteDisplay.t Seq * NoteBlock.generator →
  NoteDisplay.t Seq * NoteBlock.generator → Prop :=
  | step_drawNotes d g :
      step (d, g) (NoteDisplay.drawNotes d g)
  | step_dropListener d g event :
      step (d, g) (NoteDisplay.dropListener d event, g)
  | step_outside d g blocks_made surface' sequence' :
      step (d, g)
        ({| NoteDisplay.surface := surface';
            NoteDisplay.sequence := sequence';
            NoteDisplay.xSize := NoteDisplay.xSize d;
            NoteDisplay.ySize := NoteDisplay.ySize d;
            NoteDisplay.blocks := NoteDisplay.blocks d;
            NoteDisplay.notes := NoteDisplay.notes d;
            NoteDisplay.converter := NoteDisplay.converter d |},
         (NoteBlock.new_all blocks_made g).2).

(** The states reached from the construction of the display, which may
    happen at any state of the generator. *)
Inductive reachable : NoteDisplay.t Seq * NoteBlock.generator → Prop :=
  | reachable_new g noteSurface noteSequence xSize ySize :
      reachable (NoteDisplay.new noteSurface noteSequence xSize ySize, g)
  | reachable_step st st' :
      reachable st → step st st' → reachable st'.

(** The methods of a display called one after the other. *)
Inductive method : Type :=
  | CallDrawNotes
  | CallDropListener (event : DOM.DragEvent).

Definition run_method (st : NoteDisplay.t Seq * NoteBlock.generator) (m : method)
  : NoteDisplay.t Seq * NoteBlock.generator :=
  match m with
  | CallDrawNotes => NoteDisplay.drawNotes st.1 st.2
  | CallDropListener event => (NoteDisplay.dropListener st.1 event, st.2)
  end.

Definition run (ms : list method) (st : NoteDisplay.t Seq * NoteBlock.generator)
  : NoteDisplay.t Seq * NoteBlock.generator :=
  foldl run_method st ms.

(** What holds in every state of a display: the converter is the one of
    the constructor, the two maps have the same keys, and a block is filed
    under its own id, which the generator has handed out. *)
Definition inv (st : NoteDisplay.t Seq * NoteBlock.generator) : Prop :=
  NoteDisplay.converter st.1 = display_converter
  ∧ dom (NoteDisplay.blocks st.1) = dom (NoteDisplay.notes st.1)
  ∧ ∀ k b, NoteDisplay.blocks st.1 !! k = Some b →
      k = of_nat (NoteBlock.id b) ∧ issued st.2 (NoteBlock.id b).

(** A display without its two sizes. *)
Definition without_sizes (d : NoteDisplay.t Seq) :
    DOM.Element * Seq * gmap jsnum NoteBlock.t * gmap jsnum Note.t * LinearScaler :=
  (NoteDisplay.surface d, NoteDisplay.sequence d, NoteDisplay.blocks d,
   NoteDisplay.notes d, NoteDisplay.converter d).

End reachable.

(** A string of decimal digits only. *)
Fixpoint all_digits (s : string) : bool :=
  match s with
  | EmptyString => true
  | String c s' => is_digit c && all_digits s'
  end.

(** ** Example states *)

(** The note of the geometry example. *)
Definition example_note : Note.t :=
  {| Note.start := of_Z 0; Note.length := of_Z 2; Note.number := of_Z 60 |}.

(** A new display on a sequence that holds the example note, and the same
    display after its notes were drawn for the first time in the process. *)
Definition example_display : NoteDisplay.t Fixed :=
  NoteDisplay.new DOM.createElement_div {| fixed_notes := [example_note] |} None None.

Definition example_drawn : NoteDisplay.t Fixed * NoteBlock.generator :=
  NoteDisplay.drawNotes example_display NoteBlock.idGenerator.

(** The drop scenario: three notes in the window, drawn once, with the
    calls on the sequence recorded. *)
Definition scenario_notes : list Note.t :=
  [ {| Note.start := of_Z 0; Note.length := of_Z 1; Note.number := of_Z 60 |};
    {| Note.start := of_Z 2; Note.length := of_Z 2; Note.number := of_Z 62 |};
    {| Note.start := of_Z 5; Note.length := of_Z 1; Note.number := of_Z 64 |} ].

Definition scenario_display : NoteDisplay.t (Recorded Fixed) :=
  NoteDisplay.new DOM.createElement_div
    {| inner := {| fixed_notes := scenario_notes |}; calls := [] |} None None.

Definition scenario_drawn : NoteDisplay.t (Recorded Fixed) * NoteBlock.generator :=
  NoteDisplay.drawNotes scenario_display NoteBlock.idGenerator.

(** The blocks of the first and of the second note of the scenario. *)
Definition scenario_first_block : NoteBlock.t :=
  (NoteBlock.new
     (NoteDisplay.block_args scenario_display
        {| Note.start := of_Z 0; Note.length := of_Z 1; Note.number := of_Z 60 |})
     NoteBlock.idGenerator).1.

Definition scenario_block : NoteBlock.t :=
  (NoteBlock.new
     (NoteDisplay.block_args scenario_display
        {| Note.start := of_Z 2; Note.length := of_Z 2; Note.number := of_Z 62 |})
     (NoteBlock.Suspended 0)).1.

(** A drop event at the horizontal position [x], with the given payload
    under [application/note-id], or with none. *)
Definition drop_event (payload : option string) (x : jsnum) : DOM.DragEvent :=
  {| DOM.dataTransfer :=
       {| DOM.data := match payload with
                      | Some p => {[ "application/note-id" := p ]}
                      | None => ∅
                      end |};
     DOM.clientX := x;
     DOM.defaultPrevented := false |}.


(** * Properties *)

(** ** Arithmetic on integers *)

Lemma Fin_eq (a b : Qc) : (a == b)%Q → Fin a = Fin b.
Proof. intros E. f_equal. by apply Qc_is_canon. Qed.

Lemma Qc_of_Z_inj (a b : Z) : Qc_of_Z a = Qc_of_Z b → a = b.
Proof. unfold Qc_of_Z. intros E. injection E. auto. Qed.

Lemma of_Z_inj (a b : Z) : of_Z a = of_Z b → a = b.
Proof. unfold of_Z. intros E. apply Qc_of_Z_inj. congruence. Qed.

Lemma of_nat_inj (a b : nat) : of_nat a = of_nat b → a = b.
Proof. unfold of_nat. intros E%of_Z_inj. lia. Qed.

Lemma js_add_of_Z (a b : Z) : js_add (of_Z a) (of_Z b) = of_Z (a + b).
Proof.
  unfold of_Z; simpl. apply Fin_eq. simpl.
  rewrite Qred_correct, inject_Z_plus. reflexivity.
Qed.

Lemma js_sub_of_Z (a b : Z) : js_sub (of_Z a) (of_Z b) = of_Z (a - b).
Proof.
  unfold of_Z; simpl. apply Fin_eq. unfold Qcminus, Qcplus, Qcopp, Q2Qc; simpl.
  rewrite !Qred_correct. unfold Z.sub. rewrite inject_Z_plus, inject_Z_opp.
  reflexivity.
Qed.

Lemma js_mul_of_Z (a b : Z) : js_mul (of_Z a) (of_Z b) = of_Z (a * b).
Proof.
  unfold of_Z; simpl. apply Fin_eq. simpl.
  rewrite Qred_correct, inject_Z_mult. reflexivity.
Qed.

Lemma Math_abs_of_Z (a : Z) : Math_abs (of_Z a) = of_Z (Z.abs a).
Proof.
  unfold of_Z; simpl. case_decide as E.
  - apply Fin_eq. unfold Qclt in E. simpl in *.
    rewrite Qred_correct. unfold Qlt in E; simpl in E.
    rewrite Z.abs_neq by lia. by rewrite inject_Z_opp.
  - f_equal. unfold Qclt, Qlt in E. simpl in E.
    rewrite Z.abs_eq by lia. done.
Qed.

Create Rewrite HintDb js_int.
Hint Rewrite js_add_of_Z js_sub_of_Z js_mul_of_Z Math_abs_of_Z : js_int.

(** ** The two conversions, property by property *)

Section scaler.
Context (this : LinearScaler).

Lemma lookup_assign (name k : string) (v : jsnum) (o : gmap string jsnum) :
  assign name v o !! k
  = if decide (name = k ∧ k ≠ "__proto__") then Some v else o !! k.
Proof.
  unfold assign. case_decide as Hp.
  - subst name. rewrite decide_False; [done|]. by intros [<- ?].
  - destruct (decide (name = k)) as [<-|Hne].
    + by rewrite lookup_insert_eq, decide_True.
    + rewrite lookup_insert_ne by done. rewrite decide_False; [done|]. by intros [? _].
Qed.

(** Both loops visit each own property of their argument once and write
    the result under the same name, so what they return is read back
    property by property; no property [__proto__] is ever returned. *)
Lemma scale_fold_lookup (f : unit_entry → jsnum → jsnum)
    (m : gmap string jsnum) (k : string) :
  map_fold (λ unit v (acc : gmap string jsnum),
      match units_get this unit with
      | Missing => acc
      | e => assign unit (f e v) acc
      end) ∅ m !! k
  = if decide (k = "__proto__") then None
    else m !! k ≫= λ v,
      match units_get this k return option jsnum with
      | Missing => None
      | e => Some (f e v)
      end.
Proof.
  apply (map_fold_weak_ind
    (λ r m, r !! k = if decide (k = "__proto__") then None else m !! k ≫= _)).
  { by case_decide. }
  intros i x m' r Hi IH.
  assert (match units_get this i with
          | Missing => r
          | e => assign i (f e x) r
          end !! k
          = if decide (i = k ∧ k ≠ "__proto__")
            then match units_get this i return option jsnum with
                 | Missing => r !! k
                 | e => Some (f e x)
                 end
            else r !! k) as ->.
  { destruct (units_get this i); rewrite ?lookup_assign; by repeat case_decide. }
  rewrite IH. destruct (decide (i = k)) as [->|Hne].
  - rewrite lookup_insert_eq; simpl. case_decide as Hp.
    + rewrite decide_False; [done|]. by intros [_ ?].
    + rewrite decide_True by done. rewrite Hi. simpl. by destruct (units_get this k).
  - rewrite (lookup_insert_ne m') by done. rewrite decide_False; [done|]. by intros [? _].
Qed.

Lemma outputValuesFor_lookup (inputValues : gmap string jsnum) (k : string) :
  outputValuesFor this inputValues !! k
  = if decide (k = "__proto__") then None
    else inputValues !! k ≫= λ v,
      match units_get this k return option jsnum with
      | Missing => None
      | e => Some (js_add (ToNumber (entry_zero e))
                          (js_mul (ToNumber (entry_scaling e)) v))
      end.
Proof.
  apply (scale_fold_lookup
    (λ e v, js_add (ToNumber (entry_zero e)) (js_mul (ToNumber (entry_scaling e)) v))).
Qed.

Lemma inputValuesFor_lookup (outputValues : gmap string jsnum) (k : string) :
  inputValuesFor this outputValues !! k
  = if decide (k = "__proto__") then None
    else outputValues !! k ≫= λ v,
      match units_get this k return option jsnum with
      | Missing => None
      | e => Some (js_div (js_sub v (ToNumber (entry_zero e)))
                          (ToNumber (entry_scaling e)))
      end.
Proof.
  apply (scale_fold_lookup
    (λ e v, js_div (js_sub v (ToNumber (entry_zero e))) (ToNumber (entry_scaling e)))).
Qed.

End scaler.

(** ** The converter of the display *)

Lemma units_get_beat :
  units_get display_converter "beat"
  = OwnUnit {| zero := of_Z 40; scaling := of_Z 40 |}.
Proof. reflexivity. Qed.

Lemma units_get_pitch :
  units_get display_converter "pitch"
  = OwnUnit {| zero := of_Z 400; scaling := of_Z (-20) |}.
Proof. reflexivity. Qed.

Lemma output_beat (b p : jsnum) :
  outputValuesFor display_converter {[ "beat" := b; "pitch" := p ]} !! "beat"
  = Some (js_add (of_Z 40) (js_mul (of_Z 40) b)).
Proof.
  rewrite outputValuesFor_lookup, decide_False, lookup_insert_eq by done; simpl.
  by rewrite units_get_beat.
Qed.

Lemma output_pitch (b p : jsnum) :
  outputValuesFor display_converter {[ "beat" := b; "pitch" := p ]} !! "pitch"
  = Some (js_add (of_Z 400) (js_mul (of_Z (-20)) p)).
Proof.
  rewrite outputValuesFor_lookup, decide_False by done.
  rewrite lookup_insert_ne, lookup_singleton_eq by done.
  simpl. by rewrite units_get_pitch.
Qed.

Lemma input_beat (x : jsnum) :
  inputValuesFor display_converter {[ "beat" := x ]} !! "beat"
  = Some (js_div (js_sub x (of_Z 40)) (of_Z 40)).
Proof.
  rewrite inputValuesFor_lookup, decide_False, lookup_singleton_eq by done; simpl.
  by rewrite units_get_beat.
Qed.

Lemma input_pitch (y : jsnum) :
  inputValuesFor display_converter {[ "pitch" := y ]} !! "pitch"
  = Some (js_div (js_sub y (of_Z 400)) (of_Z (-20))).
Proof.
  rewrite inputValuesFor_lookup, decide_False, lookup_singleton_eq by done; simpl.
  by rewrite units_get_pitch.
Qed.

Lemma block_args_example {Seq} `{NoteSequence Seq} (d : NoteDisplay.t Seq) :
  NoteDisplay.converter d = display_converter →
  NoteDisplay.block_args d example_note
  = {| NoteBlock.top := Some (of_Z (-800));
       NoteBlock.left := Some (of_Z 40);
       NoteBlock.height := Some (of_Z 20);
       NoteBlock.width := Some (of_Z 80);
       NoteBlock.unit := "px" |}.
Proof.
  intros Hc. unfold NoteDisplay.block_args, example_note.
  cbn [Note.start Note.length Note.number]. rewrite Hc.
  rewrite !output_beat, !output_pitch. cbn [ToNumber].
  autorewrite with js_int. reflexivity.
Qed.

(** [drawNotes] when the sequence answers with one note. *)
Lemma drawNotes_single {Seq} `{NoteSequence Seq} (d : NoteDisplay.t Seq)
    (g : NoteBlock.generator) (note : Note.t) (s' : Seq) :
  getNotes (NoteDisplay.sequence d) (of_Z 0) (of_Z 8) = ([note], s') →
  NoteDisplay.blocks (NoteDisplay.drawNotes d g).1
  = <[of_nat (NoteBlock.next g).1 :=
        (NoteBlock.new (NoteDisplay.block_args d note) g).1]> (NoteDisplay.blocks d).
Proof.
  intros Hg. unfold NoteDisplay.drawNotes. rewrite Hg. simpl.
  unfold NoteBlock.new, NoteBlock.nextId. by destruct (NoteBlock.next g).
Qed.

(** ** The invariant of a display *)

Section invariant.
Context {Seq : Type} `{NoteSequence Seq}.

Lemma issued_next (g : NoteBlock.generator) (i : nat) :
  issued g i → issued (NoteBlock.next g).2 i.
Proof. destruct g; simpl; [done | lia]. Qed.

Lemma next_fresh (g : NoteBlock.generator) : ¬ issued g (NoteBlock.next g).1.
Proof. destruct g; simpl; [tauto | lia]. Qed.

Lemma next_issued (g : NoteBlock.generator) :
  issued (NoteBlock.next g).2 (NoteBlock.next g).1.
Proof. destruct g; simpl; lia. Qed.

Lemma new_id (a : NoteBlock.args) (g : NoteBlock.generator) :
  NoteBlock.id (NoteBlock.new a g).1 = (NoteBlock.next g).1
  ∧ (NoteBlock.new a g).2 = (NoteBlock.next g).2.
Proof. unfold NoteBlock.new, NoteBlock.nextId. by destruct (NoteBlock.next g). Qed.

Lemma issued_new_all (l : list NoteBlock.args) (g : NoteBlock.generator) (i : nat) :
  issued g i → issued (NoteBlock.new_all l g).2 i.
Proof.
  revert g. induction l as [|a l IH]; intros g Hi; simpl; [done|].
  destruct (NoteBlock.new a g) as [b g'] eqn:E.
  specialize (IH g'). destruct (NoteBlock.new_all l g') as [bs g''].
  apply IH. replace g' with (NoteBlock.new a g).2 by by rewrite E.
  rewrite (proj2 (new_id a g)). by apply issued_next.
Qed.

(** A fresh id is not yet a key of the blocks. *)
Lemma fresh_key (d : NoteDisplay.t Seq) (g : NoteBlock.generator) :
  inv (d, g) → NoteDisplay.blocks d !! of_nat (NoteBlock.next g).1 = None.
Proof.
  intros (_ & _ & Hk). destruct (NoteDisplay.blocks d !! _) as [b|] eqn:E; [|done].
  destruct (Hk _ _ E) as [Hid Hi]. apply of_nat_inj in Hid. simpl in Hi.
  rewrite <-Hid in Hi. by destruct (next_fresh g).
Qed.

(** One turn of the loop of [drawNotes] keeps the invariant and every
    entry of the two maps. *)
Lemma drawNote_inv (d : NoteDisplay.t Seq) (g : NoteBlock.generator) (note : Note.t) :
  inv (d, g) →
  inv (NoteDisplay.drawNote (d, g) note)
  ∧ NoteDisplay.blocks d ⊆ NoteDisplay.blocks (NoteDisplay.drawNote (d, g) note).1
  ∧ NoteDisplay.notes d ⊆ NoteDisplay.notes (NoteDisplay.drawNote (d, g) note).1.
Proof.
  intros Hinv. pose proof (fresh_key d g Hinv) as Hfresh.
  destruct Hinv as (Hc & Hdom & Hk). simpl in *.
  unfold NoteDisplay.drawNote.
  pose proof (new_id (NoteDisplay.block_args d note) g) as [Hid Hg].
  destruct (NoteBlock.new (NoteDisplay.block_args d note) g) as [b g']; simpl in *.
  subst g'. rewrite Hid. split; [split; [done|split]|split]; simpl.
  - by rewrite !dom_insert_L, Hdom.
  - intros k b' [[<- <-]|[_ Hb]]%lookup_insert_Some.
    + rewrite Hid. split; [done | apply next_issued].
    + apply Hk in Hb as [??]. split; [done | by apply issued_next].
  - by apply insert_subseteq.
  - apply insert_subseteq. apply not_elem_of_dom. rewrite <-Hdom.
    by apply not_elem_of_dom.
Qed.

Lemma foldl_drawNote_inv (ns : list Note.t)
    (st : NoteDisplay.t Seq * NoteBlock.generator) :
  inv st →
  inv (foldl NoteDisplay.drawNote st ns)
  ∧ NoteDisplay.blocks st.1 ⊆ NoteDisplay.blocks (foldl NoteDisplay.drawNote st ns).1
  ∧ NoteDisplay.notes st.1 ⊆ NoteDisplay.notes (foldl NoteDisplay.drawNote st ns).1.
Proof.
  revert st. induction ns as [|n ns IH]; intros [d g] Hinv; simpl; [done|].
  destruct (drawNote_inv d g n Hinv) as (Hinv' & Hb & Hn).
  destruct (IH _ Hinv') as (? & Hb' & Hn').
  split; [done|]. split; etrans; eauto.
Qed.

Lemma drawNotes_inv (d : NoteDisplay.t Seq) (g : NoteBlock.generator) :
  inv (d, g) →
  inv (NoteDisplay.drawNotes d g)
  ∧ NoteDisplay.blocks d ⊆ NoteDisplay.blocks (NoteDisplay.drawNotes d g).1
  ∧ NoteDisplay.notes d ⊆ NoteDisplay.notes (NoteDisplay.drawNotes d g).1.
Proof.
  intros Hinv. unfold NoteDisplay.drawNotes.
  destruct (getNotes (NoteDisplay.sequence d) (of_Z 0) (of_Z 8)) as [ns seq'].
  match goal with
  | |- context [foldl _ (?d0, g) ns] => exact (foldl_drawNote_inv ns (d0, g) Hinv)
  end.
Qed.

Lemma step_inv (st st' : NoteDisplay.t Seq * NoteBlock.generator) :
  step st st' → inv st → inv st'.
Proof.
  intros [d g|d g e|d g l sf sq] Hinv.
  - by apply drawNotes_inv.
  - exact Hinv.
  - destruct Hinv as (Hc & Hdom & Hk). split; [done|split; [done|]]; simpl in *.
    intros k b Hb. apply Hk in Hb as [??]. split; [done | by apply issued_new_all].
Qed.

Lemma reachable_inv (st : NoteDisplay.t Seq * NoteBlock.generator) :
  reachable st → inv st.
Proof.
  induction 1 as [g sf sq x y|st st' _ IH Hstep].
  - split; [done|split]; simpl; [by rewrite !dom_empty_L|].
    intros k b Hb. by rewrite lookup_empty in Hb.
  - by apply (step_inv st st').
Qed.

End invariant.

(** ** Reading back the string of an id *)

Lemma is_digit_cases (c : ascii) :
  is_digit c = true →
  c ∈ ["0"; "1"; "2"; "3"; "4"; "5"; "6"; "7"; "8"; "9"]%char.
Proof.
  destruct c as [[] [] [] [] [] [] [] []]; try discriminate; intros _;
    repeat (first [apply list_elem_of_here | apply list_elem_of_further]).
Qed.

Lemma is_digit_not_whitespace (c : ascii) :
  is_digit c = true → is_whitespace c = false.
Proof. intros Hc%is_digit_cases. set_unfold. by destruct_or!; subst. Qed.

Lemma all_digits_string_of_uint (d : Decimal.uint) :
  all_digits (NilEmpty.string_of_uint d) = true.
Proof. induction d; simpl; auto. Qed.

Lemma digits_value_string_of_uint (d : Decimal.uint) (acc : N) :
  digits_value 10 (NilEmpty.string_of_uint d) acc
  = Some (N.of_nat (Nat.of_uint_acc d (N.to_nat acc))).
Proof.
  revert acc. induction d; intros acc; simpl;
    [by rewrite N2Nat.id | rewrite IHd; do 2 f_equal; f_equal;
       rewrite Nat.tail_mul_spec; lia ..].
Qed.

Lemma trim_all_digits (s : string) : all_digits s = true → trim s = s.
Proof.
  intros Hs. unfold trim.
  assert (trim_left s = s) as ->.
  { destruct s as [|c s']; [done|]. simpl in *.
    apply andb_prop in Hs as [Hc%is_digit_not_whitespace _]. by rewrite Hc. }
  induction s as [|c s' IH]; [done|]. simpl in *.
  apply andb_prop in Hs as [Hc%is_digit_not_whitespace Hs].
  rewrite (IH Hs), Hc. by destruct s'.
Qed.

Lemma span_all_digits (s : string) :
  all_digits s = true → span_digits s = (s, EmptyString).
Proof.
  induction s as [|c s' IH]; [done|]. simpl.
  intros [-> Hs]%andb_prop. by rewrite (IH Hs).
Qed.

Lemma StrNumericLiteral_all_digits (s : string) :
  all_digits s = true → StrNumericLiteral s = StrUnsignedDecimalLiteral s.
Proof.
  destruct s as [|c s']; [done|]. simpl.
  intros [Hc%is_digit_cases Hs]%andb_prop.
  set_unfold. destruct_or!; subst; try done.
  destruct s' as [|c' s'']; [done|]. simpl in Hs.
  apply andb_prop in Hs as [Hc'%is_digit_cases _].
  set_unfold. by destruct_or!; subst.
Qed.

Lemma unsigned_all_digits (s : string) (n : N) :
  all_digits s = true → s ≠ EmptyString → digits_value 10 s 0 = Some n →
  StrUnsignedDecimalLiteral s = Some (Fin (Qc_of_N n)).
Proof.
  intros Hs Hne Hn. unfold StrUnsignedDecimalLiteral.
  case_decide as Hinf; [by subst|].
  unfold unsigned_decimal. rewrite (span_all_digits s Hs), Hn. simpl.
  by case_decide.
Qed.

Lemma ToString_nonempty (n : nat) : ToString n ≠ EmptyString.
Proof.
  unfold ToString. intros E.
  assert (Nat.to_uint n = Decimal.Nil) as Hnil by by destruct (Nat.to_uint n).
  pose proof (Unsigned.of_to n) as Hn. rewrite Hnil in Hn. by subst.
Qed.

(** Reading back the string of an id gives the id. *)
Lemma Number_ToString (n : nat) : Number (ToString n) = of_nat n.
Proof.
  assert (all_digits (ToString n) = true) as Hs
    by apply all_digits_string_of_uint.
  pose proof (ToString_nonempty n) as Hne.
  unfold Number. rewrite (trim_all_digits _ Hs).
  destruct (ToString n) as [|c s] eqn:E; [done|]. rewrite <-E in *.
  rewrite (StrNumericLiteral_all_digits _ Hs).
  rewrite (unsigned_all_digits _ (N.of_nat n) Hs Hne); simpl.
  - unfold of_nat, of_Z, Qc_of_N. by rewrite nat_N_Z.
  - unfold ToString. rewrite digits_value_string_of_uint.
    change (Nat.of_uint_acc ?d (N.to_nat 0)) with (Nat.of_uint d).
    by rewrite Unsigned.of_to.
Qed.

Example Number_padded : Number " 12 " = of_Z 12.
Proof. apply Fin_eq. reflexivity. Qed.

Example Number_fraction_exponent : Number "1.5e1" = of_Z 15.
Proof. apply Fin_eq. reflexivity. Qed.

Example Number_hexadecimal : Number "0x1F" = of_Z 31.
Proof. apply Fin_eq. reflexivity. Qed.

Example Number_not_numeric : Number "1 2" = NaN ∧ Number "abc" = NaN.
Proof. split; reflexivity. Qed.

Lemma reachable_converter {Seq} `{NoteSequence Seq}
    (d : NoteDisplay.t Seq) (g : NoteBlock.generator) :
  reachable (d, g) → NoteDisplay.converter d = display_converter.
Proof. by intros (? & _)%reachable_inv. Qed.

Lemma reachable_pair {Seq} `{NoteSequence Seq}
    (st : NoteDisplay.t Seq * NoteBlock.generator) :
  reachable st → reachable (st.1, st.2).
Proof. by destruct st. Qed.

Lemma example_drawn_reachable : reachable example_drawn.
Proof.
  apply (reachable_step (example_display, NoteBlock.idGenerator)).
  - apply reachable_new.
  - apply step_drawNotes.
Qed.

Lemma scenario_drawn_reachable : reachable scenario_drawn.
Proof.
  apply (reachable_step (scenario_display, NoteBlock.idGenerator)).
  - apply reachable_new.
  - apply step_drawNotes.
Qed.

(** ** Geometry of a drawn block (C1) *)

(** C1, at the note where the code departs from it.  For the note with
    start 0, length 2 and number 60, drawn by a display in any of its
    states when the sequence answers with that note alone: the two corners
    that [drawNotes] computes are at pitch outputs -800 (pitch 60) and -820
    (pitch 61), and the block that is created and filed under the next id
    has width 80px, height 20px and left 40px, but top -800px: the greater
    of the two pitch outputs, not the lesser, -820.  The sizes are taken
    with [Math.abs] but the origin is left at the start corner, so with the
    negative scaling of pitch the block reaches from -800 down to -780,
    which the inverse conversion reads as pitch 59: it lies below the
    corners computed for it, while on the beat axis it spans them, 40 to
    120, which is beat 0 to 2. *)
Theorem drawNotes_example_block {Seq} `{NoteSequence Seq}
    (d : NoteDisplay.t Seq) (g : NoteBlock.generator) (s' : Seq) :
  reachable (d, g) →
  getNotes (NoteDisplay.sequence d) (of_Z 0) (of_Z 8) = ([example_note], s') →
  outputValuesFor (NoteDisplay.converter d)
    {[ "beat" := of_Z 0; "pitch" := of_Z 60 ]} !! "pitch" = Some (of_Z (-800))
  ∧ outputValuesFor (NoteDisplay.converter d)
      {[ "beat" := of_Z 2; "pitch" := of_Z 61 ]} !! "pitch" = Some (of_Z (-820))
  ∧ ∃ b : NoteBlock.t,
      NoteDisplay.blocks (NoteDisplay.drawNotes d g).1 !! of_nat (NoteBlock.nextId g).1
      = Some b
      ∧ DOM.width (DOM.style (NoteBlock.element b))
        = Some {| DOM.magnitude := Some (of_Z 80); DOM.suffix := "px" |}
      ∧ DOM.height (DOM.style (NoteBlock.element b))
        = Some {| DOM.magnitude := Some (of_Z 20); DOM.suffix := "px" |}
      ∧ DOM.left (DOM.style (NoteBlock.element b))
        = Some {| DOM.magnitude := Some (of_Z 40); DOM.suffix := "px" |}
      ∧ DOM.top (DOM.style (NoteBlock.element b))
        = Some {| DOM.magnitude := Some (of_Z (-800)); DOM.suffix := "px" |}
      ∧ inputValuesFor (NoteDisplay.converter d)
          {[ "pitch" := js_add (of_Z (-800)) (of_Z 20) ]} !! "pitch"
        = Some (of_Z 59)
      ∧ inputValuesFor (NoteDisplay.converter d)
          {[ "beat" := js_add (of_Z 40) (of_Z 80) ]} !! "beat"
        = Some (of_Z 2).
Proof.
  intros Hc%reachable_converter Hg. rewrite Hc.
  split; [rewrite output_pitch; by autorewrite with js_int|].
  split; [rewrite output_pitch; by autorewrite with js_int|].
  rewrite (drawNotes_single d g example_note s' Hg), (block_args_example d Hc).
  assert (inputValuesFor display_converter
            {[ "pitch" := js_add (of_Z (-800)) (of_Z 20) ]} !! "pitch"
          = Some (of_Z 59)) as ->.
  { rewrite input_pitch, js_add_of_Z, js_sub_of_Z. f_equal. by apply Fin_eq. }
  assert (inputValuesFor display_converter
            {[ "beat" := js_add (of_Z 40) (of_Z 80) ]} !! "beat"
          = Some (of_Z 2)) as ->.
  { rewrite input_beat, js_add_of_Z, js_sub_of_Z. f_equal. by apply Fin_eq. }
  eexists. split; [apply lookup_insert_eq|].
  unfold NoteBlock.new. by destruct (NoteBlock.nextId g).
Qed.

Lemma drawNotes_example_block_witness :
  (reachable (example_display, NoteBlock.idGenerator)
   ∧ getNotes (NoteDisplay.sequence example_display) (of_Z 0) (of_Z 8)
     = ([example_note], {| fixed_notes := [example_note] |}))
  ∧ ∃ b : NoteBlock.t,
      NoteDisplay.blocks example_drawn.1 !! of_nat 0 = Some b
      ∧ DOM.width (DOM.style (NoteBlock.element b))
        = Some {| DOM.magnitude := Some (of_Z 80); DOM.suffix := "px" |}
      ∧ DOM.height (DOM.style (NoteBlock.element b))
        = Some {| DOM.magnitude := Some (of_Z 20); DOM.suffix := "px" |}
      ∧ DOM.left (DOM.style (NoteBlock.element b))
        = Some {| DOM.magnitude := Some (of_Z 40); DOM.suffix := "px" |}
      ∧ DOM.top (DOM.style (NoteBlock.element b))
        = Some {| DOM.magnitude := Some (of_Z (-800)); DOM.suffix := "px" |}
      ∧ inputValuesFor (NoteDisplay.converter example_display)
          {[ "pitch" := js_add (of_Z (-800)) (of_Z 20) ]} !! "pitch"
        = Some (of_Z 59)
      ∧ inputValuesFor (NoteDisplay.converter example_display)
          {[ "beat" := js_add (of_Z 40) (of_Z 80) ]} !! "beat"
        = Some (of_Z 2).
Proof.
  assert (reachable (example_display, NoteBlock.idGenerator)) as Hr
    by apply reachable_new.
  assert (getNotes (NoteDisplay.sequence example_display) (of_Z 0) (of_Z 8)
          = ([example_note], {| fixed_notes := [example_note] |})) as Hg
    by reflexivity.
  split; [by split|].
  exact (proj2 (proj2 (drawNotes_example_block
                         example_display NoteBlock.idGenerator _ Hr Hg))).
Defined.

(** The block drawn first in a process for the example note does not have
    width 80, height 20, left 40 and top -820. *)
Lemma example_block_top_is_not_the_lesser :
  ¬ ∃ b : NoteBlock.t,
      NoteDisplay.blocks example_drawn.1 !! of_nat 0 = Some b
      ∧ DOM.width (DOM.style (NoteBlock.element b))
        = Some {| DOM.magnitude := Some (of_Z 80); DOM.suffix := "px" |}
      ∧ DOM.height (DOM.style (NoteBlock.element b))
        = Some {| DOM.magnitude := Some (of_Z 20); DOM.suffix := "px" |}
      ∧ DOM.left (DOM.style (NoteBlock.element b))
        = Some {| DOM.magnitude := Some (of_Z 40); DOM.suffix := "px" |}
      ∧ DOM.top (DOM.style (NoteBlock.element b))
        = Some {| DOM.magnitude := Some (of_Z (-820)); DOM.suffix := "px" |}.
Proof.
  intros (b & Hb & _ & _ & _ & Htop).
  assert (getNotes (NoteDisplay.sequence example_display) (of_Z 0) (of_Z 8)
          = ([example_note], {| fixed_notes := [example_note] |})) as Hg
    by reflexivity.
  assert (NoteDisplay.converter example_display = display_converter) as Hc
    by reflexivity.
  unfold example_drawn in Hb.
  rewrite (drawNotes_single _ NoteBlock.idGenerator _ _ Hg) in Hb.
  change (NoteBlock.next NoteBlock.idGenerator).1 with 0%nat in Hb.
  rewrite lookup_insert_eq, (block_args_example _ Hc) in Hb.
  injection Hb as <-. simpl in Htop.
  assert (of_Z (-800) = of_Z (-820)) as E%of_Z_inj by congruence. done.
Qed.

(** ** The two conversions are inverse, but for one name (C2) *)

(** For a unit other than [__proto__] that is configured with a finite
    zero and a finite scaling other than zero, and for every finite value,
    converting the value forth and back gives the value: over the
    rationals, [inputValuesFor(outputValuesFor({unit: v}))] is
    [{unit: v}]. *)
Lemma scaler_round_trip_other_names (this : LinearScaler) (unit : string)
    (u : UnitScale) (z s v : Qc) :
  unit ≠ "__proto__" →
  units this !! unit = Some u →
  zero u = Fin z →
  scaling u = Fin s →
  s ≠ 0%Qc →
  inputValuesFor this (outputValuesFor this {[ unit := Fin v ]}) = {[ unit := Fin v ]}.
Proof.
  intros Hp Hu Hz Hs Hne.
  unfold outputValuesFor. rewrite map_fold_singleton.
  unfold outputValuesFor_step, units_get. rewrite Hu. simpl. rewrite Hz, Hs. simpl.
  unfold assign. rewrite decide_False by done. rewrite insert_empty.
  unfold inputValuesFor. rewrite map_fold_singleton.
  unfold inputValuesFor_step, units_get. rewrite Hu. simpl. rewrite Hz, Hs. simpl.
  unfold assign. rewrite !decide_False by done. rewrite insert_empty. do 2 f_equal.
  field. done.
Qed.

Example round_trip_of_pitch_60 :
  inputValuesFor display_converter
    (outputValuesFor display_converter {[ "pitch" := Fin (Qc_of_Z 60) ]})
  = {[ "pitch" := Fin (Qc_of_Z 60) ]}.
Proof.
  apply (scaler_round_trip_other_names display_converter "pitch"
           {| zero := of_Z 400; scaling := of_Z (-20) |}
           (Qc_of_Z 400) (Qc_of_Z (-20)) (Qc_of_Z 60)); done.
Qed.

(** C2, at the argument where the code departs from it.  No conversion
    ever returns a property [__proto__], whatever the configuration and the
    argument, because the assignment [outputValues[unit] = ...] goes to the
    inherited setter.  So for the scaler configured with the one unit
    [__proto__], of zero 1 and scaling 2, [outputValuesFor({__proto__: 5})]
    is the empty object, not [{__proto__: 11}], and converting forth and
    back gives the empty object, not [{__proto__: 5}]. *)
Theorem round_trip_loses_proto (this : LinearScaler) (values : gmap string jsnum) :
  outputValuesFor this values !! "__proto__" = None
  ∧ inputValuesFor this values !! "__proto__" = None
  ∧ let configured :=
      {| units := {[ "__proto__" := {| zero := of_Z 1; scaling := of_Z 2 |} ]} |} in
    units configured !! "__proto__" = Some {| zero := of_Z 1; scaling := of_Z 2 |}
    ∧ outputValuesFor configured {[ "__proto__" := of_Z 5 ]} = ∅
    ∧ inputValuesFor configured
        (outputValuesFor configured {[ "__proto__" := of_Z 5 ]}) = ∅
    ∧ inputValuesFor configured
        (outputValuesFor configured {[ "__proto__" := of_Z 5 ]})
      ≠ {[ "__proto__" := of_Z 5 ]}.
Proof.
  rewrite outputValuesFor_lookup, inputValuesFor_lookup, !decide_True by done.
  split; [done|]. split; [done|]. intros configured.
  assert (outputValuesFor configured {[ "__proto__" := of_Z 5 ]} = ∅) as Hout.
  { unfold outputValuesFor. by rewrite map_fold_singleton. }
  rewrite Hout. split; [done|]. split; [done|]. split; [done|].
  intros E. apply (f_equal (.!! "__proto__")) in E.
  by rewrite inputValuesFor_lookup, decide_True, lookup_singleton_eq in E.
Qed.

(** ** Which units a conversion returns (C4) *)

Lemma proto_inherited : "__proto__" ∈ Object_prototype.
Proof. unfold Object_prototype. set_solver. Qed.

Section filter.
Context (this : LinearScaler).

(** On an argument none of whose units bears a name that objects inherit
    from [Object.prototype], a conversion returns the units of the argument
    that are configured, and no others. *)
Lemma outputValuesFor_dom (inputValues : gmap string jsnum) :
  (∀ k, k ∈ dom inputValues → k ∉ Object_prototype) →
  dom (outputValuesFor this inputValues) = dom inputValues ∩ dom (units this).
Proof.
  intros Hp. apply set_eq. intros k.
  rewrite elem_of_intersection, !elem_of_dom, outputValuesFor_lookup.
  specialize (Hp k). rewrite elem_of_dom in Hp. unfold units_get.
  case_decide as Hk.
  { subst k. split; [by intros [??] | intros [Hin _]].
    destruct (Hp Hin proto_inherited). }
  destruct (inputValues !! k) as [v|]; simpl.
  - destruct (units this !! k) as [u|]; [by intuition eauto|].
    rewrite decide_False by eauto. split; [by intros [??] | by intros [_ [??]]].
  - split; [by intros [??] | by intros [[??] _]].
Qed.

Lemma inputValuesFor_dom (outputValues : gmap string jsnum) :
  (∀ k, k ∈ dom outputValues → k ∉ Object_prototype) →
  dom (inputValuesFor this outputValues) = dom outputValues ∩ dom (units this).
Proof.
  intros Hp. apply set_eq. intros k.
  rewrite elem_of_intersection, !elem_of_dom, inputValuesFor_lookup.
  specialize (Hp k). rewrite elem_of_dom in Hp. unfold units_get.
  case_decide as Hk.
  { subst k. split; [by intros [??] | intros [Hin _]].
    destruct (Hp Hin proto_inherited). }
  destruct (outputValues !! k) as [v|]; simpl.
  - destruct (units this !! k) as [u|]; [by intuition eauto|].
    rewrite decide_False by eauto. split; [by intros [??] | by intros [_ [??]]].
  - split; [by intros [??] | by intros [[??] _]].
Qed.

End filter.

(** C4, at the argument where the code departs from it.  The converter of
    the display has no unit [toString], and it drops the unit
    [unknownUnit]; but [outputValuesFor({toString: 5})] is
    [{toString: NaN}], not the empty object, because the test
    [this.units[unit] != undefined] finds the method that every object
    inherits; [inputValuesFor] does the same. *)
Theorem outputValuesFor_inherited_name :
  units display_converter !! "toString" = None
  ∧ outputValuesFor display_converter {[ "unknownUnit" := of_Z 5 ]} = ∅
  ∧ outputValuesFor display_converter {[ "toString" := of_Z 5 ]}
    = {[ "toString" := NaN ]}
  ∧ inputValuesFor display_converter {[ "toString" := of_Z 5 ]}
    = {[ "toString" := NaN ]}.
Proof.
  unfold outputValuesFor, inputValuesFor. rewrite !map_fold_singleton.
  repeat split.
Qed.

(** ** The ids of the blocks (C5) *)

Lemma new_all_ids_from (l : list NoteBlock.args) (g : NoteBlock.generator) :
  NoteBlock.id <$> (NoteBlock.new_all l g).1
  = seq (NoteBlock.next g).1 (length l).
Proof.
  revert g. induction l as [|a l IH]; intros g; simpl; [done|].
  pose proof (new_id a g) as [Hid Hg].
  destruct (NoteBlock.new a g) as [b g']; simpl in *. subst g'.
  specialize (IH (NoteBlock.next g).2).
  destruct (NoteBlock.new_all l _) as [bs g'']. cbn [fst snd] in *.
  rewrite fmap_cons, Hid, IH. by destruct g.
Qed.

(** C5.  The blocks constructed in a process, in the order of their
    construction and whatever their arguments, have the ids 0, 1, ...,
    N-1: the generator starts at 0, counts up by one and is never reset. *)
Theorem new_all_ids (l : list NoteBlock.args) :
  NoteBlock.id <$> (NoteBlock.new_all l NoteBlock.idGenerator).1
  = seq 0 (length l).
Proof. apply new_all_ids_from. Qed.

(** ** The two sizes do not reach the converter (C6) *)

Section sizes.
Context {Seq : Type} `{NoteSequence Seq}.

Lemma drawNote_without_sizes (d1 d2 : NoteDisplay.t Seq)
    (g : NoteBlock.generator) (note : Note.t) :
  without_sizes d1 = without_sizes d2 →
  without_sizes (NoteDisplay.drawNote (d1, g) note).1
  = without_sizes (NoteDisplay.drawNote (d2, g) note).1
  ∧ (NoteDisplay.drawNote (d1, g) note).2 = (NoteDisplay.drawNote (d2, g) note).2.
Proof.
  destruct d1, d2. unfold without_sizes; simpl. intros [= -> -> -> -> ->].
  unfold NoteDisplay.drawNote, NoteDisplay.block_args; simpl.
  by destruct (NoteBlock.new _ g).
Qed.

Lemma foldl_drawNote_without_sizes (ns : list Note.t) (d1 d2 : NoteDisplay.t Seq)
    (g : NoteBlock.generator) :
  without_sizes d1 = without_sizes d2 →
  without_sizes (foldl NoteDisplay.drawNote (d1, g) ns).1
  = without_sizes (foldl NoteDisplay.drawNote (d2, g) ns).1
  ∧ (foldl NoteDisplay.drawNote (d1, g) ns).2
    = (foldl NoteDisplay.drawNote (d2, g) ns).2.
Proof.
  revert d1 d2 g. induction ns as [|n ns IH]; intros d1 d2 g E; cbn [foldl]; [done|].
  destruct (drawNote_without_sizes d1 d2 g n E) as [E1 E2].
  destruct (NoteDisplay.drawNote (d1, g) n) as [d1' g1'],
           (NoteDisplay.drawNote (d2, g) n) as [d2' g2']; simpl in *.
  subst g2'. by apply IH.
Qed.

Lemma run_method_without_sizes
    (st1 st2 : NoteDisplay.t Seq * NoteBlock.generator) (m : method) :
  without_sizes st1.1 = without_sizes st2.1 → st1.2 = st2.2 →
  without_sizes (run_method st1 m).1 = without_sizes (run_method st2 m).1
  ∧ (run_method st1 m).2 = (run_method st2 m).2.
Proof.
  destruct st1 as [d1 g], st2 as [d2 g2]; simpl. intros E <-.
  destruct m as [|e]; simpl.
  - unfold NoteDisplay.drawNotes.
    assert (NoteDisplay.sequence d1 = NoteDisplay.sequence d2) as <-
      by (unfold without_sizes in E; congruence).
    destruct (getNotes _ _ _) as [ns s'].
    apply foldl_drawNote_without_sizes.
    unfold without_sizes in *; simpl. congruence.
  - split; [|done]. unfold without_sizes in *; simpl.
    injection E as -> -> -> -> ->. done.
Qed.

Lemma run_without_sizes (ms : list method)
    (st1 st2 : NoteDisplay.t Seq * NoteBlock.generator) :
  without_sizes st1.1 = without_sizes st2.1 → st1.2 = st2.2 →
  without_sizes (run ms st1).1 = without_sizes (run ms st2).1
  ∧ (run ms st1).2 = (run ms st2).2.
Proof.
  revert st1 st2.
  induction ms as [|m ms IH]; intros st1 st2 E Eg; cbn [run foldl]; [done|].
  destruct (run_method_without_sizes st1 st2 m E Eg). by apply IH.
Qed.

Lemma run_reachable (ms : list method) (st : NoteDisplay.t Seq * NoteBlock.generator) :
  reachable st → reachable (run ms st).
Proof.
  revert st. induction ms as [|m ms IH]; intros [d g] Hr; simpl; [done|].
  apply IH. apply (reachable_step (d, g)); [done|].
  destruct m; simpl; constructor.
Qed.

(** C6.  Two displays constructed alike but for [xSize] and [ySize], and
    then put through the same calls of [drawNotes] and [dropListener],
    convert every argument alike, in both directions: the converter of
    either has beat with zero 40 and scaling 40 and pitch with zero 400 and
    scaling -20.  They also agree on their surface, their sequence (hence
    on every call made on it), their blocks and their notes, and leave the
    id generator in the same state. *)
Theorem sizes_do_not_reach_the_converter
    (noteSurface : DOM.Element) (noteSequence : Seq)
    (xSize1 ySize1 xSize2 ySize2 : option jsnum)
    (ms : list method) (g : NoteBlock.generator) (values : gmap string jsnum) :
  let st1 := run ms (NoteDisplay.new noteSurface noteSequence xSize1 ySize1, g) in
  let st2 := run ms (NoteDisplay.new noteSurface noteSequence xSize2 ySize2, g) in
  units (NoteDisplay.converter st1.1)
  = {[ "beat" := {| zero := of_Z 40; scaling := of_Z 40 |};
       "pitch" := {| zero := of_Z 400; scaling := of_Z (-20) |} ]}
  ∧ outputValuesFor (NoteDisplay.converter st1.1) values
    = outputValuesFor (NoteDisplay.converter st2.1) values
  ∧ inputValuesFor (NoteDisplay.converter st1.1) values
    = inputValuesFor (NoteDisplay.converter st2.1) values
  ∧ without_sizes st1.1 = without_sizes st2.1
  ∧ st1.2 = st2.2.
Proof.
  intros st1 st2.
  assert (reachable st1) as H1 by apply run_reachable, reachable_new.
  assert (reachable st2) as H2 by apply run_reachable, reachable_new.
  destruct st1 as [d1 g1] eqn:E1, st2 as [d2 g2] eqn:E2.
  apply reachable_converter in H1, H2. simpl. rewrite H1, H2.
  split; [done|]. split; [done|]. split; [done|].
  pose proof (run_without_sizes ms
    (NoteDisplay.new noteSurface noteSequence xSize1 ySize1, g)
    (NoteDisplay.new noteSurface noteSequence xSize2 ySize2, g) eq_refl eq_refl)
    as [Ew Eg].
  fold st1 st2 in Ew, Eg. subst st1 st2. by rewrite E1, E2 in Ew, Eg.
Qed.

End sizes.

(** ** The two maps of a display (C7, C9) *)

Section maps.
Context {Seq : Type} `{NoteSequence Seq}.

(** C7.  In every state of a display, [drawNotes] keeps every entry of
    [blocks] and of [notes]: a key that held a value holds the same value
    after the call. *)
Theorem drawNotes_keeps_entries (d : NoteDisplay.t Seq) (g : NoteBlock.generator) :
  reachable (d, g) →
  (∀ k b, NoteDisplay.blocks d !! k = Some b →
          NoteDisplay.blocks (NoteDisplay.drawNotes d g).1 !! k = Some b)
  ∧ (∀ k n, NoteDisplay.notes d !! k = Some n →
            NoteDisplay.notes (NoteDisplay.drawNotes d g).1 !! k = Some n).
Proof.
  intros Hr%reachable_inv. destruct (drawNotes_inv d g Hr) as (_ & Hb & Hn).
  split; intros k x Hk; eapply lookup_weaken; eauto.
Qed.

(** C9.  In every state of a display, from its construction on and after
    every call of [drawNotes] or [dropListener], a key holds a block in
    [blocks] if and only if it holds a note in [notes]. *)
Theorem blocks_notes_same_keys (d : NoteDisplay.t Seq) (g : NoteBlock.generator) :
  reachable (d, g) →
  ∀ k, is_Some (NoteDisplay.blocks d !! k) ↔ is_Some (NoteDisplay.notes d !! k).
Proof.
  intros (_ & Hdom & _)%reachable_inv k. simpl in Hdom.
  by rewrite <-!elem_of_dom, Hdom.
Qed.

End maps.

Lemma drawNotes_keeps_entries_witness :
  reachable (example_drawn.1, example_drawn.2)
  ∧ (∀ k b, NoteDisplay.blocks example_drawn.1 !! k = Some b →
       NoteDisplay.blocks
         (NoteDisplay.drawNotes example_drawn.1 example_drawn.2).1 !! k = Some b)
  ∧ (∀ k n, NoteDisplay.notes example_drawn.1 !! k = Some n →
       NoteDisplay.notes
         (NoteDisplay.drawNotes example_drawn.1 example_drawn.2).1 !! k = Some n).
Proof.
  assert (reachable (example_drawn.1, example_drawn.2)) as Hr
    by exact (reachable_pair _ example_drawn_reachable).
  split; [exact Hr|].
  exact (drawNotes_keeps_entries example_drawn.1 example_drawn.2 Hr).
Defined.

Lemma blocks_notes_same_keys_witness :
  reachable (example_drawn.1, example_drawn.2)
  ∧ ∀ k, is_Some (NoteDisplay.blocks example_drawn.1 !! k)
         ↔ is_Some (NoteDisplay.notes example_drawn.1 !! k).
Proof.
  assert (reachable (example_drawn.1, example_drawn.2)) as Hr
    by exact (reachable_pair _ example_drawn_reachable).
  split; [exact Hr|].
  exact (blocks_notes_same_keys example_drawn.1 example_drawn.2 Hr).
Defined.

(** ** Drops (C3, C8, C10) *)

Section drop.
Context {Seq : Type} `{NoteSequence Seq}.

(** A drop makes one call on the sequence, a [moveNote]. *)
Lemma dropListener_calls (d : NoteDisplay.t (Recorded Seq)) (e : DOM.DragEvent) :
  NoteDisplay.converter d = display_converter →
  calls (NoteDisplay.sequence (NoteDisplay.dropListener d e))
  = (calls (NoteDisplay.sequence d)
     ++ [MoveNote
           (NoteDisplay.notes d
              !! Number (DOM.getData (DOM.dataTransfer e) "application/note-id"))
           (Some (js_div (js_sub (DOM.clientX e) (of_Z 40)) (of_Z 40)))])%list.
Proof.
  intros Hc. unfold NoteDisplay.dropListener; simpl. by rewrite Hc, input_beat.
Qed.

Lemma drop_200 : js_div (js_sub (of_Z 200) (of_Z 40)) (of_Z 40) = of_Z 4.
Proof. rewrite js_sub_of_Z. apply Fin_eq. reflexivity. Qed.

Lemma reachable_note_of_block (d : NoteDisplay.t (Recorded Seq))
    (g : NoteBlock.generator) (k : jsnum) (b : NoteBlock.t) :
  reachable (d, g) →
  NoteDisplay.blocks d !! k = Some b →
  k = of_nat (NoteBlock.id b) ∧ is_Some (NoteDisplay.notes d !! k).
Proof.
  intros (_ & Hdom & Hk)%reachable_inv Hb. cbn [fst snd] in Hdom, Hk.
  split; [by destruct (Hk k b Hb)|].
  apply elem_of_dom. rewrite <-Hdom. apply elem_of_dom. eauto.
Qed.

(** C3.  In every state of a display, a drop at the horizontal position
    200 whose payload is the id of a block the display holds adds one call
    to those made on the sequence: [moveNote] with the note filed under
    that id and with [newStart] 4, which is what the inverse conversion of
    beat gives for 200, (200 - 40) / 40. *)
Theorem dropListener_rendered_block (d : NoteDisplay.t (Recorded Seq))
    (g : NoteBlock.generator) (e : DOM.DragEvent) (k : jsnum) (b : NoteBlock.t) :
  reachable (d, g) →
  NoteDisplay.blocks d !! k = Some b →
  DOM.getData (DOM.dataTransfer e) "application/note-id" = ToString (NoteBlock.id b) →
  DOM.clientX e = of_Z 200 →
  ∃ note,
    NoteDisplay.notes d !! of_nat (NoteBlock.id b) = Some note
    ∧ calls (NoteDisplay.sequence (NoteDisplay.dropListener d e))
      = (calls (NoteDisplay.sequence d)
         ++ [MoveNote (Some note) (Some (of_Z 4))])%list
    ∧ inputValuesFor (NoteDisplay.converter d) {[ "beat" := of_Z 200 ]} !! "beat"
      = Some (of_Z 4).
Proof.
  intros Hr Hb Hp Hx. pose proof (reachable_converter d g Hr) as Hc.
  destruct (reachable_note_of_block d g k b Hr Hb) as [-> [note Hn]].
  exists note. split; [done|]. split.
  - rewrite (dropListener_calls d e Hc).
    by rewrite Hp, Number_ToString, Hn, Hx, drop_200.
  - by rewrite Hc, input_beat, drop_200.
Qed.

(** C8.  In every state of a display, a drop whose payload is read as a
    number that is no key of [notes] still adds one call to those made on
    the sequence: [moveNote] with [undefined] for the note and with the
    [newStart] that the inverse conversion of beat computes from the
    horizontal position of the drop, (clientX - 40) / 40. *)
Theorem dropListener_unknown_id (d : NoteDisplay.t (Recorded Seq))
    (g : NoteBlock.generator) (e : DOM.DragEvent) :
  reachable (d, g) →
  NoteDisplay.notes d
    !! Number (DOM.getData (DOM.dataTransfer e) "application/note-id") = None →
  calls (NoteDisplay.sequence (NoteDisplay.dropListener d e))
  = (calls (NoteDisplay.sequence d)
     ++ [MoveNote None
           (Some (js_div (js_sub (DOM.clientX e) (of_Z 40)) (of_Z 40)))])%list
  ∧ inputValuesFor (NoteDisplay.converter d) {[ "beat" := DOM.clientX e ]} !! "beat"
    = Some (js_div (js_sub (DOM.clientX e) (of_Z 40)) (of_Z 40)).
Proof.
  intros Hc%reachable_converter Hk. split.
  - by rewrite (dropListener_calls d e Hc), Hk.
  - by rewrite Hc, input_beat.
Qed.

(** C10.  The empty string is read as the number 0.  So, in every state
    of a display that holds the block with id 0, a drop with no payload
    under [application/note-id] calls [moveNote] with the note of that
    block, and leaves the display as the drop of that very block at the
    same position does. *)
Theorem dropListener_empty_payload (d : NoteDisplay.t (Recorded Seq))
    (g : NoteBlock.generator) (e : DOM.DragEvent) (b : NoteBlock.t) :
  reachable (d, g) →
  DOM.getData (DOM.dataTransfer e) "application/note-id" = EmptyString →
  NoteDisplay.blocks d !! of_nat 0 = Some b →
  Number EmptyString = of_nat 0
  ∧ ∃ note,
      NoteDisplay.notes d !! of_nat 0 = Some note
      ∧ calls (NoteDisplay.sequence (NoteDisplay.dropListener d e))
        = (calls (NoteDisplay.sequence d)
           ++ [MoveNote (Some note)
                 (Some (js_div (js_sub (DOM.clientX e) (of_Z 40)) (of_Z 40)))])%list
      ∧ ∀ dragstart : DOM.DragEvent,
          NoteDisplay.dropListener d e
          = NoteDisplay.dropListener d
              {| DOM.dataTransfer :=
                   DOM.dataTransfer (NoteBlock.dragListener b dragstart);
                 DOM.clientX := DOM.clientX e;
                 DOM.defaultPrevented := DOM.defaultPrevented e |}.
Proof.
  intros Hr Hp Hb. split; [done|].
  destruct (reachable_note_of_block d g _ b Hr Hb) as [Hid%of_nat_inj [note Hn]].
  exists note. split; [done|]. split.
  - rewrite (dropListener_calls d e (reachable_converter d g Hr)), Hp.
    change (Number EmptyString) with (of_nat 0). by rewrite Hn.
  - intros e0. unfold NoteDisplay.dropListener, NoteBlock.dragListener; simpl.
    rewrite Hp. unfold DOM.getData, DOM.setData; simpl.
    rewrite lookup_insert_eq; simpl. rewrite <-Hid.
    change (ToString 0) with "0". done.
Qed.

End drop.

Lemma dropListener_rendered_block_witness :
  (reachable (scenario_drawn.1, scenario_drawn.2)
   ∧ NoteDisplay.blocks scenario_drawn.1 !! of_nat 1 = Some scenario_block
   ∧ DOM.getData (DOM.dataTransfer (drop_event (Some "1") (of_Z 200)))
       "application/note-id" = ToString (NoteBlock.id scenario_block))
  ∧ ∃ note,
      NoteDisplay.notes scenario_drawn.1 !! of_nat (NoteBlock.id scenario_block)
      = Some note
      ∧ calls (NoteDisplay.sequence
                 (NoteDisplay.dropListener scenario_drawn.1
                    (drop_event (Some "1") (of_Z 200))))
        = (calls (NoteDisplay.sequence scenario_drawn.1)
           ++ [MoveNote (Some note) (Some (of_Z 4))])%list
      ∧ inputValuesFor (NoteDisplay.converter scenario_drawn.1)
          {[ "beat" := of_Z 200 ]} !! "beat"
        = Some (of_Z 4).
Proof.
  assert (reachable (scenario_drawn.1, scenario_drawn.2)) as Hr
    by exact (reachable_pair _ scenario_drawn_reachable).
  assert (NoteDisplay.blocks scenario_drawn.1 !! of_nat 1 = Some scenario_block)
    as Hb by (vm_compute; reflexivity).
  assert (DOM.getData (DOM.dataTransfer (drop_event (Some "1") (of_Z 200)))
            "application/note-id" = ToString (NoteBlock.id scenario_block))
    as Hp by reflexivity.
  split; [by repeat split|].
  exact (dropListener_rendered_block scenario_drawn.1 scenario_drawn.2
           (drop_event (Some "1") (of_Z 200)) (of_nat 1) scenario_block
           Hr Hb Hp eq_refl).
Defined.

Lemma dropListener_unknown_id_witness :
  (reachable (scenario_drawn.1, scenario_drawn.2)
   ∧ NoteDisplay.notes scenario_drawn.1
       !! Number (DOM.getData (DOM.dataTransfer (drop_event (Some "7") (of_Z 200)))
                    "application/note-id") = None)
  ∧ calls (NoteDisplay.sequence
             (NoteDisplay.dropListener scenario_drawn.1
                (drop_event (Some "7") (of_Z 200))))
    = (calls (NoteDisplay.sequence scenario_drawn.1)
       ++ [MoveNote None
             (Some (js_div (js_sub (of_Z 200) (of_Z 40)) (of_Z 40)))])%list.
Proof.
  assert (reachable (scenario_drawn.1, scenario_drawn.2)) as Hr
    by exact (reachable_pair _ scenario_drawn_reachable).
  assert (NoteDisplay.notes scenario_drawn.1
            !! Number (DOM.getData
                         (DOM.dataTransfer (drop_event (Some "7") (of_Z 200)))
                         "application/note-id") = None)
    as Hk by (vm_compute; reflexivity).
  split; [by split|].
  exact (proj1 (dropListener_unknown_id scenario_drawn.1 scenario_drawn.2
                  (drop_event (Some "7") (of_Z 200)) Hr Hk)).
Defined.

Lemma dropListener_empty_payload_witness :
  (reachable (scenario_drawn.1, scenario_drawn.2)
   ∧ DOM.getData (DOM.dataTransfer (drop_event None (of_Z 200)))
       "application/note-id" = EmptyString
   ∧ NoteDisplay.blocks scenario_drawn.1 !! of_nat 0 = Some scenario_first_block)
  ∧ ∃ note,
      NoteDisplay.notes scenario_drawn.1 !! of_nat 0 = Some note
      ∧ calls (NoteDisplay.sequence
                 (NoteDisplay.dropListener scenario_drawn.1
                    (drop_event None (of_Z 200))))
        = (calls (NoteDisplay.sequence scenario_drawn.1)
           ++ [MoveNote (Some note)
                 (Some (js_div (js_sub (of_Z 200) (of_Z 40)) (of_Z 40)))])%list
      ∧ ∀ dragstart : DOM.DragEvent,
          NoteDisplay.dropListener scenario_drawn.1 (drop_event None (of_Z 200))
          = NoteDisplay.dropListener scenario_drawn.1
              {| DOM.dataTransfer :=
                   DOM.dataTransfer
                     (NoteBlock.dragListener scenario_first_block dragstart);
                 DOM.clientX := of_Z 200;
                 DOM.defaultPrevented := false |}.
Proof.
  assert (reachable (scenario_drawn.1, scenario_drawn.2)) as Hr
    by exact (reachable_pair _ scenario_drawn_reachable).
  assert (NoteDisplay.blocks scenario_drawn.1 !! of_nat 0
          = Some scenario_first_block) as Hb by (vm_compute; reflexivity).
  split; [by repeat split|].
  exact (proj2 (dropListener_empty_payload scenario_drawn.1 scenario_drawn.2
                  (drop_event None (of_Z 200)) scenario_first_block
                  Hr eq_refl Hb)).
Defined.

(** * Further properties *)

(** ** Conversions of whole mappings *)

Section scaler_more.
Context (this : LinearScaler).

(** A unit of a mapping all of whose units are configured with a finite
    zero and a finite scaling other than zero, and hold a finite value. *)
Lemma convertible_lookup (m : gmap string jsnum) (k : string) (v : jsnum) :
  (∀ k v, m !! k = Some v →
     ∃ u z s q, units this !! k = Some u ∧ zero u = Fin z ∧ scaling u = Fin s
                ∧ s ≠ 0%Qc ∧ v = Fin q) →
  m !! k = Some v →
  ∃ z s q, units_get this k = OwnUnit {| zero := Fin z; scaling := Fin s |}
           ∧ s ≠ 0%Qc ∧ v = Fin q.
Proof.
  intros Hm Hk. destruct (Hm k v Hk) as (u & z & s & q & Hu & Hz & Hs & Hne & ->).
  exists z, s, q. unfold units_get. rewrite Hu. destruct u; simpl in *. by subst.
Qed.

(** Over the rationals, converting a whole mapping forth and back gives
    the mapping, when each of its units is configured with a finite zero
    and a finite scaling other than zero and holds a finite value, and none
    is named [__proto__]. *)
Theorem round_trip_of_a_mapping (m : gmap string jsnum) :
  m !! "__proto__" = None →
  (∀ k v, m !! k = Some v →
     ∃ u z s q, units this !! k = Some u ∧ zero u = Fin z ∧ scaling u = Fin s
                ∧ s ≠ 0%Qc ∧ v = Fin q) →
  inputValuesFor this (outputValuesFor this m) = m.
Proof.
  intros Hp Hm. apply map_eq. intros k.
  rewrite inputValuesFor_lookup, outputValuesFor_lookup.
  case_decide as Hk; [by subst|].
  destruct (m !! k) as [v|] eqn:Hv; [|done]. simpl.
  destruct (convertible_lookup m k v Hm Hv) as (z & s & q & -> & Hne & ->). simpl.
  rewrite decide_False by done. do 2 f_equal. field. done.
Qed.

(** Under the same conditions the other order is the identity as well:
    [outputValuesFor(inputValuesFor(m))] is [m]. *)
Theorem reverse_round_trip_of_a_mapping (m : gmap string jsnum) :
  m !! "__proto__" = None →
  (∀ k v, m !! k = Some v →
     ∃ u z s q, units this !! k = Some u ∧ zero u = Fin z ∧ scaling u = Fin s
                ∧ s ≠ 0%Qc ∧ v = Fin q) →
  outputValuesFor this (inputValuesFor this m) = m.
Proof.
  intros Hp Hm. apply map_eq. intros k.
  rewrite outputValuesFor_lookup, inputValuesFor_lookup.
  case_decide as Hk; [by subst|].
  destruct (m !! k) as [v|] eqn:Hv; [|done]. simpl.
  destruct (convertible_lookup m k v Hm Hv) as (z & s & q & -> & Hne & ->). simpl.
  rewrite decide_False by done. simpl. do 2 f_equal. field. done.
Qed.

(** Nothing guards a scaling of zero.  For a unit configured with it,
    [outputValuesFor] gives the zero of the unit for every finite value,
    and converting forth and back gives NaN, from the division of zero by
    zero. *)
Theorem zero_scaling_loses_the_value (unit : string) (u : UnitScale) (z v : Qc) :
  unit ≠ "__proto__" →
  units this !! unit = Some u →
  zero u = Fin z →
  scaling u = Fin 0 →
  outputValuesFor this {[ unit := Fin v ]} = {[ unit := Fin z ]}
  ∧ inputValuesFor this (outputValuesFor this {[ unit := Fin v ]})
    = {[ unit := NaN ]}.
Proof.
  intros Hp Hu Hz Hs.
  assert (outputValuesFor this {[ unit := Fin v ]} = {[ unit := Fin z ]}) as Hout.
  { unfold outputValuesFor. rewrite map_fold_singleton.
    unfold outputValuesFor_step, units_get. rewrite Hu. simpl.
    rewrite Hz, Hs. simpl. unfold assign. rewrite decide_False by done.
    rewrite insert_empty. do 2 f_equal. ring. }
  split; [done|]. rewrite Hout.
  unfold inputValuesFor. rewrite map_fold_singleton.
  unfold inputValuesFor_step, units_get. rewrite Hu. simpl.
  rewrite Hz, Hs. simpl. unfold assign. rewrite decide_False by done.
  rewrite insert_empty. f_equal. unfold Qc_sgn.
  replace (z - z)%Qc with 0%Qc by ring. done.
Qed.

(** For every configuration and every argument, a conversion returns
    each configured unit of its argument, and no unit that its argument
    does not have, the name [__proto__] apart, which is never returned. *)
Theorem conversions_return_passed_units (m : gmap string jsnum) :
  (dom m ∩ dom (units this)) ∖ {[ "__proto__" ]} ⊆ dom (outputValuesFor this m)
  ∧ dom (outputValuesFor this m) ⊆ dom m ∖ {[ "__proto__" ]}
  ∧ (dom m ∩ dom (units this)) ∖ {[ "__proto__" ]} ⊆ dom (inputValuesFor this m)
  ∧ dom (inputValuesFor this m) ⊆ dom m ∖ {[ "__proto__" ]}.
Proof.
  split_and!; intros k;
    rewrite elem_of_difference, ?elem_of_intersection, !elem_of_dom,
      elem_of_singleton;
    rewrite ?outputValuesFor_lookup, ?inputValuesFor_lookup; unfold units_get;
    case_decide as Hk.
  - by intros [_ ?].
  - intros [[[v ->] [u ->]] _]. simpl. eauto.
  - by intros [??].
  - destruct (m !! k); [eauto | by intros [??]].
  - by intros [_ ?].
  - intros [[[v ->] [u ->]] _]. simpl. eauto.
  - by intros [??].
  - destruct (m !! k); [eauto | by intros [??]].
Qed.

(** On an argument none of whose units bears a name that objects inherit
    from [Object.prototype], both conversions return exactly the units of
    the argument that are configured. *)
Theorem conversions_filter_plain_names (m : gmap string jsnum) :
  (∀ k, k ∈ dom m → k ∉ Object_prototype) →
  dom (outputValuesFor this m) = dom m ∩ dom (units this)
  ∧ dom (inputValuesFor this m) = dom m ∩ dom (units this).
Proof.
  intros Hp. split; [by apply outputValuesFor_dom | by apply inputValuesFor_dom].
Qed.

End scaler_more.

Lemma Qc_of_Z_1 : Qc_of_Z 1 = 1%Qc.
Proof. by apply Qc_is_canon. Qed.

Section geometry.
Context {Seq : Type} `{NoteSequence Seq}.

Lemma block_args_finite (d : NoteDisplay.t Seq) (note : Note.t) (s l n : Qc) :
  NoteDisplay.converter d = display_converter →
  Note.start note = Fin s →
  Note.length note = Fin l →
  Note.number note = Fin n →
  (0 ≤ l)%Qc →
  NoteDisplay.block_args d note
  = {| NoteBlock.top := Some (Fin (Qc_of_Z 400 - Qc_of_Z 20 * n));
       NoteBlock.left := Some (Fin (Qc_of_Z 40 + Qc_of_Z 40 * s));
       NoteBlock.height := Some (of_Z 20);
       NoteBlock.width := Some (Fin (Qc_of_Z 40 * l));
       NoteBlock.unit := "px" |}.
Proof.
  intros Hc Hs Hl Hn Hpos.
  unfold NoteDisplay.block_args. rewrite Hc, !output_beat, !output_pitch, Hs, Hl, Hn.
  unfold of_Z. cbn [ToNumber js_add js_mul js_sub Math_abs]. rewrite Qc_of_Z_1.
  f_equal; do 2 f_equal.
  - apply Qc_is_canon. simpl. rewrite !Qred_correct. ring.
  - replace (Qc_of_Z 400 + Qc_of_Z (-20) * (n + 1) - (Qc_of_Z 400 + Qc_of_Z (-20) * n))%Qc
      with (Qc_of_Z (-20)) by ring.
    rewrite decide_True by done. by apply Qc_is_canon.
  - replace (Qc_of_Z 40 + Qc_of_Z 40 * (s + l) - (Qc_of_Z 40 + Qc_of_Z 40 * s))%Qc
      with (Qc_of_Z 40 * l)%Qc by ring.
    rewrite decide_False; [done|]. apply Qcle_not_lt.
    by apply Qcmult_nonneg_nonneg.
Qed.

(** Over the rationals, and in every state of a display: the block of a
    note with finite start [s], length [l] and number [n], with [l] not
    negative, is constructed with left [40 + 40 s], top [400 - 20 n],
    width [40 l] and height 20, in [px]. *)
Theorem block_geometry (d : NoteDisplay.t Seq) (g : NoteBlock.generator)
    (note : Note.t) (s l n : Qc) :
  reachable (d, g) →
  Note.start note = Fin s →
  Note.length note = Fin l →
  Note.number note = Fin n →
  (0 ≤ l)%Qc →
  NoteDisplay.block_args d note
  = {| NoteBlock.top := Some (Fin (Qc_of_Z 400 - Qc_of_Z 20 * n));
       NoteBlock.left := Some (Fin (Qc_of_Z 40 + Qc_of_Z 40 * s));
       NoteBlock.height := Some (of_Z 20);
       NoteBlock.width := Some (Fin (Qc_of_Z 40 * l));
       NoteBlock.unit := "px" |}.
Proof. intros Hc%reachable_converter. by apply block_args_finite. Qed.

(** Over the rationals, and in every state of a display: the block of a
    note that starts where another ends begins at the right edge of the
    block of that other note, and the block of a note one pitch higher ends
    at the top of the block one pitch lower. *)
Theorem blocks_tile (d : NoteDisplay.t Seq) (g : NoteBlock.generator)
    (a b : Note.t) (sa la na sb lb nb : Qc) :
  reachable (d, g) →
  Note.start a = Fin sa → Note.length a = Fin la → Note.number a = Fin na →
  Note.start b = Fin sb → Note.length b = Fin lb → Note.number b = Fin nb →
  (0 ≤ la)%Qc → (0 ≤ lb)%Qc →
  (sb = (sa + la)%Qc →
   js_add (ToNumber (NoteBlock.left (NoteDisplay.block_args d a)))
          (ToNumber (NoteBlock.width (NoteDisplay.block_args d a)))
   = ToNumber (NoteBlock.left (NoteDisplay.block_args d b)))
  ∧ (nb = (na + 1)%Qc →
     js_add (ToNumber (NoteBlock.top (NoteDisplay.block_args d b)))
            (ToNumber (NoteBlock.height (NoteDisplay.block_args d b)))
     = ToNumber (NoteBlock.top (NoteDisplay.block_args d a))).
Proof.
  intros Hc%reachable_converter Hsa Hla Hna Hsb Hlb Hnb Ha Hb.
  rewrite (block_args_finite d a sa la na), (block_args_finite d b sb lb nb) by done.
  unfold of_Z. simpl. split; intros ->; f_equal.
  - ring.
  - replace (Qc_of_Z 20) with (Qc_of_Z 20 * 1)%Qc at 2 by ring. ring.
Qed.

End geometry.

Lemma next_next (g : NoteBlock.generator) :
  (NoteBlock.next (NoteBlock.next g).2).1 = S (NoteBlock.next g).1.
Proof. by destruct g. Qed.

Section drawing.
Context {Seq : Type} `{NoteSequence Seq}.

Lemma block_args_converter (d1 d2 : NoteDisplay.t Seq) (note : Note.t) :
  NoteDisplay.converter d1 = NoteDisplay.converter d2 →
  NoteDisplay.block_args d1 note = NoteDisplay.block_args d2 note.
Proof. intros E. unfold NoteDisplay.block_args. by rewrite E. Qed.

(** One turn of the loop, field by field. *)
Lemma drawNote_fields (d : NoteDisplay.t Seq) (g : NoteBlock.generator) (note : Note.t) :
  let b := (NoteBlock.new (NoteDisplay.block_args d note) g).1 in
  NoteDisplay.drawNote (d, g) note
  = ({| NoteDisplay.surface := DOM.appendChild (NoteBlock.element b) (NoteDisplay.surface d);
        NoteDisplay.sequence := NoteDisplay.sequence d;
        NoteDisplay.xSize := NoteDisplay.xSize d;
        NoteDisplay.ySize := NoteDisplay.ySize d;
        NoteDisplay.blocks := <[of_nat (NoteBlock.next g).1 := b]> (NoteDisplay.blocks d);
        NoteDisplay.notes := <[of_nat (NoteBlock.next g).1 := note]> (NoteDisplay.notes d);
        NoteDisplay.converter := NoteDisplay.converter d |}, (NoteBlock.next g).2)
  ∧ NoteBlock.id b = (NoteBlock.next g).1.
Proof.
  intros b. subst b. unfold NoteDisplay.drawNote.
  pose proof (new_id (NoteDisplay.block_args d note) g) as [Hid Hg].
  destruct (NoteBlock.new (NoteDisplay.block_args d note) g) as [b g']; simpl in *.
  subst g'. by rewrite Hid.
Qed.

(** What the loop leaves alone, and how far it moves the generator and
    the list of children. *)
Lemma foldl_drawNote_frame (ns : list Note.t) (d : NoteDisplay.t Seq)
    (g : NoteBlock.generator) :
  let r := foldl NoteDisplay.drawNote (d, g) ns in
  NoteDisplay.converter r.1 = NoteDisplay.converter d
  ∧ NoteDisplay.xSize r.1 = NoteDisplay.xSize d
  ∧ NoteDisplay.ySize r.1 = NoteDisplay.ySize d
  ∧ NoteDisplay.sequence r.1 = NoteDisplay.sequence d
  ∧ (NoteBlock.next r.2).1 = ((NoteBlock.next g).1 + length ns)%nat
  ∧ DOM.style (NoteDisplay.surface r.1) = DOM.style (NoteDisplay.surface d)
  ∧ DOM.attributes (NoteDisplay.surface r.1) = DOM.attributes (NoteDisplay.surface d)
  ∧ DOM.listeners (NoteDisplay.surface r.1) = DOM.listeners (NoteDisplay.surface d)
  ∧ ∃ new : list DOM.Element,
      DOM.children (NoteDisplay.surface r.1)
      = (DOM.children (NoteDisplay.surface d) ++ new)%list
      ∧ length new = length ns.
Proof.
  revert d g. induction ns as [|n ns IH]; intros d g; cbn zeta; cbn [foldl].
  - simpl. split_and!; try done. exists []. by rewrite app_nil_r.
  - destruct (drawNote_fields d g n) as [-> _].
    match goal with
    | |- context [foldl _ (?d1, ?g1) ns] =>
        destruct (IH d1 g1) as (-> & -> & -> & -> & -> & -> & -> & -> & new & -> & Hlen)
    end.
    simpl. rewrite next_next. split_and!; try done; [lia|].
    eexists (_ :: new). rewrite <-app_assoc. simpl. split; [done|]. by rewrite Hlen.
Qed.

(** The loop writes under the ids it draws only. *)
Lemma foldl_drawNote_keep (ns : list Note.t) (d : NoteDisplay.t Seq)
    (g : NoteBlock.generator) (k : jsnum) :
  (∀ j, ((NoteBlock.next g).1 ≤ j)%nat → k ≠ of_nat j) →
  NoteDisplay.blocks (foldl NoteDisplay.drawNote (d, g) ns).1 !! k
  = NoteDisplay.blocks d !! k
  ∧ NoteDisplay.notes (foldl NoteDisplay.drawNote (d, g) ns).1 !! k
    = NoteDisplay.notes d !! k.
Proof.
  revert d g. induction ns as [|n ns IH]; intros d g Hk; cbn [foldl]; [done|].
  destruct (drawNote_fields d g n) as [-> _].
  match goal with
  | |- context [foldl _ (?d1, ?g1) ns] => destruct (IH d1 g1) as [-> ->]
  end.
  { intros j Hj. rewrite next_next in Hj. apply Hk. lia. }
  simpl. rewrite !lookup_insert_ne; [done| |]; apply not_eq_sym, Hk; lia.
Qed.

(** The i-th note in the answer of the sequence. *)
Lemma foldl_drawNote_index (ns : list Note.t) (d : NoteDisplay.t Seq)
    (g : NoteBlock.generator) (i : nat) (note : Note.t) :
  ns !! i = Some note →
  let r := foldl NoteDisplay.drawNote (d, g) ns in
  let k := of_nat ((NoteBlock.next g).1 + i) in
  NoteDisplay.notes r.1 !! k = Some note
  ∧ ∃ b : NoteBlock.t,
      NoteDisplay.blocks r.1 !! k = Some b
      ∧ NoteBlock.id b = ((NoteBlock.next g).1 + i)%nat
      ∧ (∃ g0, b = (NoteBlock.new (NoteDisplay.block_args d note) g0).1)
      ∧ DOM.children (NoteDisplay.surface r.1)
          !! (length (DOM.children (NoteDisplay.surface d)) + i)%nat
        = Some (NoteBlock.element b).
Proof.
  revert d g i. induction ns as [|n ns IH]; intros d g i Hi; [done|].
  cbn [foldl]. destruct (drawNote_fields d g n) as [E Hid]. rewrite E. clear E.
  set (b := (NoteBlock.new (NoteDisplay.block_args d n) g).1) in *.
  set (d1 := {| NoteDisplay.surface := _ |}).
  destruct i as [|i]; simpl in Hi.
  - injection Hi as ->. rewrite Nat.add_0_r.
    destruct (foldl_drawNote_keep ns d1 (NoteBlock.next g).2
                (of_nat (NoteBlock.next g).1)) as [-> ->].
    { intros j Hj E%of_nat_inj. rewrite next_next in Hj. lia. }
    subst d1; simpl. rewrite !lookup_insert_eq. split; [done|].
    exists b. split_and!; [done | done | by exists g |].
    destruct (foldl_drawNote_frame ns
      {| NoteDisplay.surface :=
           DOM.appendChild (NoteBlock.element b) (NoteDisplay.surface d);
         NoteDisplay.sequence := NoteDisplay.sequence d;
         NoteDisplay.xSize := NoteDisplay.xSize d;
         NoteDisplay.ySize := NoteDisplay.ySize d;
         NoteDisplay.blocks :=
           <[of_nat (NoteBlock.next g).1 := b]> (NoteDisplay.blocks d);
         NoteDisplay.notes :=
           <[of_nat (NoteBlock.next g).1 := note]> (NoteDisplay.notes d);
         NoteDisplay.converter := NoteDisplay.converter d |}
      (NoteBlock.next g).2) as (_ & _ & _ & _ & _ & _ & _ & _ & new & -> & _).
    simpl. rewrite <-app_assoc, lookup_app_r by lia.
    by replace (_ + 0 - _)%nat with 0%nat by lia.
  - destruct (IH d1 (NoteBlock.next g).2 i Hi) as (Hn & b' & Hb & Hid' & [g0 Hnew] & Hc).
    rewrite next_next in Hn, Hb, Hid'.
    replace ((NoteBlock.next g).1 + S i)%nat with (S (NoteBlock.next g).1 + i)%nat by lia.
    split; [done|]. exists b'. split_and!; [done|done| |].
    + exists g0. by rewrite Hnew, (block_args_converter d1 d note).
    + rewrite <-Hc. f_equal. subst d1; simpl. rewrite length_app. simpl. lia.
Qed.

(** The loop adds one entry to each map for every note, in a display
    that satisfies the invariant. *)
Lemma foldl_drawNote_size (ns : list Note.t) (st : NoteDisplay.t Seq * NoteBlock.generator) :
  inv st →
  size (NoteDisplay.blocks (foldl NoteDisplay.drawNote st ns).1)
  = (size (NoteDisplay.blocks st.1) + length ns)%nat
  ∧ size (NoteDisplay.notes (foldl NoteDisplay.drawNote st ns).1)
    = (size (NoteDisplay.notes st.1) + length ns)%nat.
Proof.
  revert st. induction ns as [|n ns IH]; intros [d g] Hinv; cbn [foldl].
  - simpl. lia.
  - destruct (drawNote_inv d g n Hinv) as (Hinv' & _ & _).
    destruct (IH _ Hinv') as [-> ->].
    pose proof (fresh_key d g Hinv) as Hb.
    assert (NoteDisplay.notes d !! of_nat (NoteBlock.next g).1 = None) as Hn.
    { destruct Hinv as (_ & Hdom & _). simpl in Hdom.
      apply not_elem_of_dom. rewrite <-Hdom. by apply not_elem_of_dom. }
    destruct (drawNote_fields d g n) as [-> _]. simpl.
    rewrite !map_size_insert_None by done. lia.
Qed.

Lemma drawNotes_unfold (d : NoteDisplay.t Seq) (g : NoteBlock.generator) :
  NoteDisplay.drawNotes d g
  = foldl NoteDisplay.drawNote
      ({| NoteDisplay.surface := NoteDisplay.surface d;
          NoteDisplay.sequence := (getNotes (NoteDisplay.sequence d) (of_Z 0) (of_Z 8)).2;
          NoteDisplay.xSize := NoteDisplay.xSize d;
          NoteDisplay.ySize := NoteDisplay.ySize d;
          NoteDisplay.blocks := NoteDisplay.blocks d;
          NoteDisplay.notes := NoteDisplay.notes d;
          NoteDisplay.converter := NoteDisplay.converter d |}, g)
      (getNotes (NoteDisplay.sequence d) (of_Z 0) (of_Z 8)).1.
Proof. unfold NoteDisplay.drawNotes. by destruct (getNotes _ _ _). Qed.

End drawing.

Section drawing_theorems.
Context {Seq : Type} `{NoteSequence Seq}.

Lemma drawNotes_sequence (d : NoteDisplay.t Seq) (g : NoteBlock.generator) :
  NoteDisplay.sequence (NoteDisplay.drawNotes d g).1
  = (getNotes (NoteDisplay.sequence d) (of_Z 0) (of_Z 8)).2
  ∧ NoteDisplay.converter (NoteDisplay.drawNotes d g).1 = NoteDisplay.converter d.
Proof.
  rewrite drawNotes_unfold.
  match goal with
  | |- context [foldl _ (?d0, g) ?ns] =>
      destruct (foldl_drawNote_frame ns d0 g) as (-> & _ & _ & -> & _)
  end.
  done.
Qed.

(** What [drawNotes] changes, in any state: the sequence becomes what its
    [getNotes] leaves, the surface gets one more child per note of the
    answer, after the children it had, and the generator is asked for one
    id per note.  The converter, the two sizes, and the style, attributes
    and listeners of the surface stay as they are. *)
Theorem drawNotes_changes (d : NoteDisplay.t Seq) (g : NoteBlock.generator) :
  let answer := getNotes (NoteDisplay.sequence d) (of_Z 0) (of_Z 8) in
  let r := NoteDisplay.drawNotes d g in
  NoteDisplay.converter r.1 = NoteDisplay.converter d
  ∧ NoteDisplay.xSize r.1 = NoteDisplay.xSize d
  ∧ NoteDisplay.ySize r.1 = NoteDisplay.ySize d
  ∧ NoteDisplay.sequence r.1 = answer.2
  ∧ (NoteBlock.next r.2).1 = ((NoteBlock.next g).1 + length answer.1)%nat
  ∧ DOM.style (NoteDisplay.surface r.1) = DOM.style (NoteDisplay.surface d)
  ∧ DOM.attributes (NoteDisplay.surface r.1) = DOM.attributes (NoteDisplay.surface d)
  ∧ DOM.listeners (NoteDisplay.surface r.1) = DOM.listeners (NoteDisplay.surface d)
  ∧ ∃ new : list DOM.Element,
      DOM.children (NoteDisplay.surface r.1)
      = (DOM.children (NoteDisplay.surface d) ++ new)%list
      ∧ length new = length answer.1.
Proof.
  intros answer r. subst r. rewrite drawNotes_unfold. fold answer.
  match goal with
  | |- context [foldl _ (?d0, g) answer.1] =>
      exact (foldl_drawNote_frame answer.1 d0 g)
  end.
Qed.

Lemma drawNotes_index (d : NoteDisplay.t Seq) (g : NoteBlock.generator)
    (i : nat) (note : Note.t) :
  (getNotes (NoteDisplay.sequence d) (of_Z 0) (of_Z 8)).1 !! i = Some note →
  let r := NoteDisplay.drawNotes d g in
  let k := of_nat ((NoteBlock.next g).1 + i) in
  NoteDisplay.notes r.1 !! k = Some note
  ∧ ∃ b : NoteBlock.t,
      NoteDisplay.blocks r.1 !! k = Some b
      ∧ NoteBlock.id b = ((NoteBlock.next g).1 + i)%nat
      ∧ (∃ g0, b = (NoteBlock.new (NoteDisplay.block_args d note) g0).1)
      ∧ DOM.children (NoteDisplay.surface r.1)
          !! (length (DOM.children (NoteDisplay.surface d)) + i)%nat
        = Some (NoteBlock.element b).
Proof.
  intros Hi r k. subst r. rewrite drawNotes_unfold.
  match goal with
  | |- context [foldl _ (?d0, g) ?ns] =>
      destruct (foldl_drawNote_index ns d0 g i note Hi) as (Hn & b & Hb & Hid & [g0 Hg0] & Hc)
  end.
  split; [done|]. exists b. split_and!; [done|done| |done].
  exists g0. by rewrite Hg0, (block_args_converter _ d note).
Qed.

(** In any state, the note at position [i] of the answer of the sequence is
    filed by [drawNotes] under the id that comes [i] after the next id of
    the generator, beside a block that has this id, was constructed from
    the geometry of that note, and whose element is the child of the
    surface at position [i] after the children it had. *)
Theorem drawNotes_files_each_note (d : NoteDisplay.t Seq) (g : NoteBlock.generator)
    (i : nat) (note : Note.t) :
  (getNotes (NoteDisplay.sequence d) (of_Z 0) (of_Z 8)).1 !! i = Some note →
  let r := NoteDisplay.drawNotes d g in
  let k := of_nat ((NoteBlock.next g).1 + i) in
  NoteDisplay.notes r.1 !! k = Some note
  ∧ ∃ b : NoteBlock.t,
      NoteDisplay.blocks r.1 !! k = Some b
      ∧ NoteBlock.id b = ((NoteBlock.next g).1 + i)%nat
      ∧ (∃ g0, b = (NoteBlock.new (NoteDisplay.block_args d note) g0).1)
      ∧ DOM.children (NoteDisplay.surface r.1)
          !! (length (DOM.children (NoteDisplay.surface d)) + i)%nat
        = Some (NoteBlock.element b).
Proof. intros Hi. exact (drawNotes_index d g i note Hi). Qed.

(** In every state of a display, [drawNotes] adds to each of the two maps
    exactly one entry per note of the answer of the sequence: notes drawn
    again get new blocks beside the old ones. *)
Theorem drawNotes_adds_one_entry_per_note (d : NoteDisplay.t Seq)
    (g : NoteBlock.generator) :
  reachable (d, g) →
  let ns := (getNotes (NoteDisplay.sequence d) (of_Z 0) (of_Z 8)).1 in
  size (NoteDisplay.blocks (NoteDisplay.drawNotes d g).1)
  = (size (NoteDisplay.blocks d) + length ns)%nat
  ∧ size (NoteDisplay.notes (NoteDisplay.drawNotes d g).1)
    = (size (NoteDisplay.notes d) + length ns)%nat.
Proof.
  intros Hinv%reachable_inv ns. rewrite drawNotes_unfold. fold ns.
  match goal with
  | |- context [foldl _ (?d0, g) ns] => exact (foldl_drawNote_size ns (d0, g) Hinv)
  end.
Qed.

(** When the sequence answers with no note, [drawNotes] leaves the surface,
    the two maps and the generator as they are: no block is constructed and
    no id is used. *)
Theorem drawNotes_nothing_to_draw (d : NoteDisplay.t Seq) (g : NoteBlock.generator)
    (s' : Seq) :
  getNotes (NoteDisplay.sequence d) (of_Z 0) (of_Z 8) = ([], s') →
  NoteDisplay.drawNotes d g
  = ({| NoteDisplay.surface := NoteDisplay.surface d;
        NoteDisplay.sequence := s';
        NoteDisplay.xSize := NoteDisplay.xSize d;
        NoteDisplay.ySize := NoteDisplay.ySize d;
        NoteDisplay.blocks := NoteDisplay.blocks d;
        NoteDisplay.notes := NoteDisplay.notes d;
        NoteDisplay.converter := NoteDisplay.converter d |}, g).
Proof. intros Hg. unfold NoteDisplay.drawNotes. by rewrite Hg. Qed.

(** In every state of a display, a block is filed under its own id, and
    every key of the two maps is an id that the generator has handed out:
    NaN is no key, and neither is the id the generator gives next. *)
Theorem keys_are_issued_ids (d : NoteDisplay.t Seq) (g : NoteBlock.generator) :
  reachable (d, g) →
  (∀ k b, NoteDisplay.blocks d !! k = Some b → k = of_nat (NoteBlock.id b))
  ∧ (∀ k, is_Some (NoteDisplay.blocks d !! k) ∨ is_Some (NoteDisplay.notes d !! k) →
          ∃ i, k = of_nat i ∧ issued g i)
  ∧ NoteDisplay.notes d !! NaN = None
  ∧ NoteDisplay.notes d !! of_nat (NoteBlock.next g).1 = None.
Proof.
  intros Hinv%reachable_inv. pose proof Hinv as (_ & Hdom & Hk). cbn [fst snd] in *.
  assert (∀ k, is_Some (NoteDisplay.notes d !! k) → ∃ i, k = of_nat i ∧ issued g i)
    as Hnotes.
  { intros k Hn. apply elem_of_dom in Hn. rewrite <-Hdom in Hn.
    apply elem_of_dom in Hn as [b Hb]. destruct (Hk k b Hb). eauto. }
  split_and!.
  - intros k b Hb. by destruct (Hk k b Hb).
  - intros k [[b Hb]|Hn]; [destruct (Hk k b Hb); eauto | by apply Hnotes].
  - apply eq_None_not_Some. by intros (i & Hi & _)%Hnotes.
  - apply eq_None_not_Some. intros (i & E%of_nat_inj & Hi)%Hnotes.
    subst i. by apply next_fresh in Hi.
Qed.

End drawing_theorems.

Lemma drawNotes_calls {Seq} `{NoteSequence Seq}
    (d : NoteDisplay.t (Recorded Seq)) (g : NoteBlock.generator) :
  calls (NoteDisplay.sequence (NoteDisplay.drawNotes d g).1)
  = (calls (NoteDisplay.sequence d) ++ [GetNotes (of_Z 0) (of_Z 8)])%list.
Proof.
  rewrite (proj1 (drawNotes_sequence d g)).
  simpl. by destruct (getNotes (inner (NoteDisplay.sequence d)) _ _).
Qed.

(** In any state, [drawNotes] makes exactly one call on the sequence,
    [getNotes] with the window from 0 to 8, and never [moveNote]. *)
Theorem drawNotes_one_getNotes {Seq} `{NoteSequence Seq}
    (d : NoteDisplay.t (Recorded Seq))
    (g : NoteBlock.generator) :
  calls (NoteDisplay.sequence (NoteDisplay.drawNotes d g).1)
  = (calls (NoteDisplay.sequence d) ++ [GetNotes (of_Z 0) (of_Z 8)])%list.
Proof.
  rewrite (proj1 (drawNotes_sequence d g)).
  simpl. by destruct (getNotes (inner (NoteDisplay.sequence d)) _ _).
Qed.

(** ** Blocks *)



Section held_blocks.
Context {Seq : Type} `{NoteSequence Seq}.

(** The constructor of a block, read off the element it builds. *)
Lemma new_element (a : NoteBlock.args) (g : NoteBlock.generator) :
  let b := (NoteBlock.new a g).1 in
  let len v := Some {| DOM.magnitude := v; DOM.suffix := NoteBlock.unit a |} in
  DOM.style (NoteBlock.element b)
  = {| DOM.position := "absolute";
       DOM.height := len (NoteBlock.height a);
       DOM.width := len (NoteBlock.width a);
       DOM.left := len (NoteBlock.left a);
       DOM.top := len (NoteBlock.top a);
       DOM.background := "blue" |}
  ∧ DOM.attributes (NoteBlock.element b) = {[ "draggable" := "true" ]}
  ∧ DOM.listeners (NoteBlock.element b)
    = [("dragstart", DOM.dragListener (NoteBlock.id b))]
  ∧ DOM.children (NoteBlock.element b) = [].
Proof. unfold NoteBlock.new. by destruct (NoteBlock.nextId g). Qed.




End held_blocks.

(** ** Dragging *)

Lemma dragged_payload (b : NoteBlock.t) (e : DOM.DragEvent) :
  DOM.getData (DOM.dataTransfer (NoteBlock.dragListener b e)) "application/note-id"
  = ToString (NoteBlock.id b).
Proof.
  unfold NoteBlock.dragListener, DOM.getData, DOM.setData. simpl.
  by rewrite lookup_insert_eq.
Qed.

(** The id that [dragListener] of a block writes into the drag data is
    the number [dropListener] reads back from it, whatever the data held
    before. *)
Theorem payload_round_trip (b : NoteBlock.t) (e : DOM.DragEvent) :
  Number (DOM.getData (DOM.dataTransfer (NoteBlock.dragListener b e))
            "application/note-id")
  = of_nat (NoteBlock.id b).
Proof. rewrite dragged_payload. apply Number_ToString. Qed.

Lemma elem_of_types (dt : DOM.DataTransfer) (format : string) :
  format ∈ DOM.types dt ↔ is_Some (DOM.data dt !! format).
Proof.
  unfold DOM.types. rewrite list_elem_of_fmap. split.
  - intros ([k v] & -> & Hkv%elem_of_map_to_list). eauto.
  - intros [v Hv]. exists (format, v). split; [done|]. by apply elem_of_map_to_list.
Qed.

(** [dragOverListener] prevents the default, and so allows a drop, exactly
    when the drag data has an entry for [application/note-id], whatever the
    entry holds (an event whose default was prevented before stays so); it
    changes nothing else of the event. *)
Theorem dragOverListener_accepts (e : DOM.DragEvent) :
  (DOM.defaultPrevented (NoteDisplay.dragOverListener e) = true
   ↔ is_Some (DOM.data (DOM.dataTransfer e) !! "application/note-id")
     ∨ DOM.defaultPrevented e = true)
  ∧ DOM.dataTransfer (NoteDisplay.dragOverListener e) = DOM.dataTransfer e
  ∧ DOM.clientX (NoteDisplay.dragOverListener e) = DOM.clientX e.
Proof.
  unfold NoteDisplay.dragOverListener. case_decide as Ht; rewrite elem_of_types in Ht.
  - simpl. split_and!; [|done|done]. split; [by left | done].
  - split_and!; [|done|done]. split; [by right | by intros [?|?]].
Qed.

(** A drag started on any block is allowed to drop: after [dragListener]
    of the block, [dragOverListener] prevents the default. *)
Theorem block_drags_are_accepted (b : NoteBlock.t) (e : DOM.DragEvent) :
  DOM.defaultPrevented (NoteDisplay.dragOverListener (NoteBlock.dragListener b e))
  = true.
Proof.
  unfold NoteDisplay.dragOverListener. rewrite decide_True; [done|].
  apply elem_of_types. unfold NoteBlock.dragListener, DOM.setData. simpl.
  rewrite lookup_insert_eq. eauto.
Qed.

Section drops.
Context {Seq : Type} `{NoteSequence Seq}.

Lemma drop_back (q : Qc) :
  js_div (js_sub (js_add (of_Z 40) (js_mul (of_Z 40) (Fin q))) (of_Z 40)) (of_Z 40)
  = Fin q.
Proof.
  unfold of_Z. simpl. f_equal. field. discriminate.
Qed.

(** In every state of a display, dropping what [dragListener] of a block
    the display holds has put into the drag data makes exactly one call on
    the sequence: [moveNote] with the note filed under the id of that block
    and with [newStart] (clientX - 40) / 40. *)
Theorem drag_then_drop (d : NoteDisplay.t (Recorded Seq)) (g : NoteBlock.generator)
    (k : jsnum) (b : NoteBlock.t) (dragstart drop : DOM.DragEvent) :
  reachable (d, g) →
  NoteDisplay.blocks d !! k = Some b →
  DOM.dataTransfer drop = DOM.dataTransfer (NoteBlock.dragListener b dragstart) →
  ∃ note,
    NoteDisplay.notes d !! k = Some note
    ∧ calls (NoteDisplay.sequence (NoteDisplay.dropListener d drop))
      = (calls (NoteDisplay.sequence d)
         ++ [MoveNote (Some note)
               (Some (js_div (js_sub (DOM.clientX drop) (of_Z 40)) (of_Z 40)))])%list.
Proof.
  intros Hr Hb Hdt.
  destruct (reachable_note_of_block d g k b Hr Hb) as [-> [note Hn]].
  exists note. split; [done|].
  rewrite (dropListener_calls d drop (reachable_converter d g Hr)).
  by rewrite Hdt, dragged_payload, Number_ToString, Hn.
Qed.

(** Over the rationals, and in every state of a display: a drop at the
    left edge that [drawNotes] gives the block of a note with a finite
    start asks [moveNote] for that very start. *)
Theorem drop_in_place (d : NoteDisplay.t (Recorded Seq)) (g : NoteBlock.generator)
    (note : Note.t) (s : Qc) (drop : DOM.DragEvent) :
  reachable (d, g) →
  Note.start note = Fin s →
  DOM.clientX drop = ToNumber (NoteBlock.left (NoteDisplay.block_args d note)) →
  calls (NoteDisplay.sequence (NoteDisplay.dropListener d drop))
  = (calls (NoteDisplay.sequence d)
     ++ [MoveNote
           (NoteDisplay.notes d
              !! Number (DOM.getData (DOM.dataTransfer drop) "application/note-id"))
           (Some (Note.start note))])%list.
Proof.
  intros Hc%reachable_converter Hs Hx.
  rewrite (dropListener_calls d drop Hc), Hx.
  unfold NoteDisplay.block_args. cbn [NoteBlock.left].
  rewrite Hc, output_beat. cbn [ToNumber]. by rewrite Hs, drop_back.
Qed.

(** Drawing, dragging and dropping together.  From every state of a
    display, after [drawNotes] the child of the surface at position [i] after the
    children it had is the element of a block whose [dragstart] listener
    is bound to it, and dropping what that listener puts into the drag data
    calls [moveNote] with the note at position [i] of the answer of the
    sequence and with [newStart] (clientX - 40) / 40; the calls on the
    sequence are that [getNotes] and this [moveNote], and no other. *)
Theorem draw_drag_drop (d : NoteDisplay.t (Recorded Seq)) (g : NoteBlock.generator)
    (i : nat) (note : Note.t) (child : DOM.Element) :
  reachable (d, g) →
  (getNotes (NoteDisplay.sequence d) (of_Z 0) (of_Z 8)).1 !! i = Some note →
  let r := NoteDisplay.drawNotes d g in
  DOM.children (NoteDisplay.surface r.1)
    !! (length (DOM.children (NoteDisplay.surface d)) + i)%nat = Some child →
  ∃ b : NoteBlock.t,
    NoteBlock.element b = child
    ∧ DOM.listeners child = [("dragstart", DOM.dragListener (NoteBlock.id b))]
    ∧ ∀ dragstart drop : DOM.DragEvent,
        DOM.dataTransfer drop
        = DOM.dataTransfer (NoteBlock.dragListener b dragstart) →
        calls (NoteDisplay.sequence (NoteDisplay.dropListener r.1 drop))
        = (calls (NoteDisplay.sequence d)
           ++ [GetNotes (of_Z 0) (of_Z 8);
               MoveNote (Some note)
                 (Some (js_div (js_sub (DOM.clientX drop) (of_Z 40)) (of_Z 40)))])%list.
Proof.
  intros Hr Hi r Hchild.
  destruct (drawNotes_index d g i note Hi)
    as (Hn & b & Hb & Hid & [g0 Hg0] & Hc).
  fold r in Hn, Hb, Hc. rewrite Hchild in Hc. injection Hc as ->.
  exists b. split; [done|]. split.
  { rewrite Hg0. by destruct (new_element (NoteDisplay.block_args d note) g0)
      as (_ & _ & -> & _). }
  intros dragstart drop Hdt.
  assert (NoteDisplay.converter r.1 = display_converter) as Hconv.
  { subst r. rewrite (proj2 (drawNotes_sequence d g)).
    by apply (reachable_converter d g). }
  rewrite (dropListener_calls r.1 _ Hconv), Hdt.
  rewrite dragged_payload, Number_ToString, Hid, Hn. subst r.
  rewrite drawNotes_calls. by rewrite <-app_assoc.
Qed.

End drops.

(** ** Instances of the properties that have a precondition *)

Lemma example_mapping_convertible (k : string) (v : jsnum) :
  ({[ "beat" := Fin (Qc_of_Z 3); "pitch" := Fin (Qc_of_Z 60) ]} : gmap string jsnum)
    !! k = Some v →
  ∃ u z s q, units display_converter !! k = Some u ∧ zero u = Fin z
             ∧ scaling u = Fin s ∧ s ≠ 0%Qc ∧ v = Fin q.
Proof.
  intros [[<- <-]|[_ [<- <-]%lookup_singleton_Some]]%lookup_insert_Some.
  - exists {| zero := of_Z 40; scaling := of_Z 40 |}, (Qc_of_Z 40), (Qc_of_Z 40),
      (Qc_of_Z 3). by split_and!.
  - exists {| zero := of_Z 400; scaling := of_Z (-20) |}, (Qc_of_Z 400),
      (Qc_of_Z (-20)), (Qc_of_Z 60). by split_and!.
Defined.

Lemma round_trip_of_a_mapping_witness :
  inputValuesFor display_converter
    (outputValuesFor display_converter
       {[ "beat" := Fin (Qc_of_Z 3); "pitch" := Fin (Qc_of_Z 60) ]})
  = {[ "beat" := Fin (Qc_of_Z 3); "pitch" := Fin (Qc_of_Z 60) ]}.
Proof.
  apply (round_trip_of_a_mapping display_converter);
    [reflexivity | exact example_mapping_convertible].
Defined.

Lemma reverse_round_trip_of_a_mapping_witness :
  outputValuesFor display_converter
    (inputValuesFor display_converter
       {[ "beat" := Fin (Qc_of_Z 3); "pitch" := Fin (Qc_of_Z 60) ]})
  = {[ "beat" := Fin (Qc_of_Z 3); "pitch" := Fin (Qc_of_Z 60) ]}.
Proof.
  apply (reverse_round_trip_of_a_mapping display_converter);
    [reflexivity | exact example_mapping_convertible].
Defined.

Lemma zero_scaling_loses_the_value_witness :
  let flat := {| units := {[ "beat" := {| zero := of_Z 40; scaling := Fin 0 |} ]} |} in
  outputValuesFor flat {[ "beat" := Fin (Qc_of_Z 3) ]} = {[ "beat" := of_Z 40 ]}
  ∧ inputValuesFor flat (outputValuesFor flat {[ "beat" := Fin (Qc_of_Z 3) ]})
    = {[ "beat" := NaN ]}.
Proof.
  intros flat.
  assert ("beat" ≠ "__proto__") as Hp by discriminate.
  exact (zero_scaling_loses_the_value flat "beat"
           {| zero := of_Z 40; scaling := Fin 0 |} (Qc_of_Z 40) (Qc_of_Z 3)
           Hp eq_refl eq_refl eq_refl).
Defined.

Lemma conversions_filter_plain_names_witness :
  dom (outputValuesFor display_converter
         {[ "beat" := of_Z 1; "unknownUnit" := of_Z 5 ]})
  = dom ({[ "beat" := of_Z 1; "unknownUnit" := of_Z 5 ]} : gmap string jsnum)
    ∩ dom (units display_converter)
  ∧ dom (inputValuesFor display_converter
           {[ "beat" := of_Z 1; "unknownUnit" := of_Z 5 ]})
    = dom ({[ "beat" := of_Z 1; "unknownUnit" := of_Z 5 ]} : gmap string jsnum)
      ∩ dom (units display_converter).
Proof.
  apply (conversions_filter_plain_names display_converter).
  intros k. rewrite dom_insert_L, dom_singleton_L, elem_of_union, !elem_of_singleton.
  intros [->| ->]; rewrite list_elem_of_In; simpl; intuition discriminate.
Defined.

Lemma block_geometry_witness :
  NoteDisplay.block_args example_display example_note
  = {| NoteBlock.top := Some (Fin (Qc_of_Z 400 - Qc_of_Z 20 * Qc_of_Z 60));
       NoteBlock.left := Some (Fin (Qc_of_Z 40 + Qc_of_Z 40 * Qc_of_Z 0));
       NoteBlock.height := Some (of_Z 20);
       NoteBlock.width := Some (Fin (Qc_of_Z 40 * Qc_of_Z 2));
       NoteBlock.unit := "px" |}.
Proof.
  apply (block_geometry example_display NoteBlock.idGenerator example_note
           (Qc_of_Z 0) (Qc_of_Z 2) (Qc_of_Z 60)).
  - apply reachable_new.
  - reflexivity.
  - reflexivity.
  - reflexivity.
  - discriminate.
Defined.

Lemma blocks_tile_witness :
  let a := example_note in
  let b := {| Note.start := of_Z 2; Note.length := of_Z 1; Note.number := of_Z 61 |} in
  js_add (ToNumber (NoteBlock.left (NoteDisplay.block_args example_display a)))
         (ToNumber (NoteBlock.width (NoteDisplay.block_args example_display a)))
  = ToNumber (NoteBlock.left (NoteDisplay.block_args example_display b))
  ∧ js_add (ToNumber (NoteBlock.top (NoteDisplay.block_args example_display b)))
           (ToNumber (NoteBlock.height (NoteDisplay.block_args example_display b)))
    = ToNumber (NoteBlock.top (NoteDisplay.block_args example_display a)).
Proof.
  intros a b.
  assert (Qc_of_Z 2 = (Qc_of_Z 0 + Qc_of_Z 2)%Qc) as Hs by by apply Qc_is_canon.
  assert (Qc_of_Z 61 = (Qc_of_Z 60 + 1)%Qc) as Hn by by apply Qc_is_canon.
  destruct (blocks_tile example_display NoteBlock.idGenerator a b
              (Qc_of_Z 0) (Qc_of_Z 2) (Qc_of_Z 60) (Qc_of_Z 2) (Qc_of_Z 1) (Qc_of_Z 61))
    as [Hleft Htop].
  - apply reachable_new.
  - reflexivity.
  - reflexivity.
  - reflexivity.
  - reflexivity.
  - reflexivity.
  - reflexivity.
  - discriminate.
  - discriminate.
  - split; [exact (Hleft Hs) | exact (Htop Hn)].
Defined.

Lemma drawNotes_files_each_note_witness :
  let note := {| Note.start := of_Z 2; Note.length := of_Z 2; Note.number := of_Z 62 |} in
  (getNotes (NoteDisplay.sequence scenario_display) (of_Z 0) (of_Z 8)).1 !! 1%nat
  = Some note
  ∧ NoteDisplay.notes scenario_drawn.1 !! of_nat 1 = Some note
  ∧ ∃ b : NoteBlock.t,
      NoteDisplay.blocks scenario_drawn.1 !! of_nat 1 = Some b
      ∧ NoteBlock.id b = 1%nat
      ∧ (∃ g0, b = (NoteBlock.new (NoteDisplay.block_args scenario_display note) g0).1)
      ∧ DOM.children (NoteDisplay.surface scenario_drawn.1) !! 1%nat
        = Some (NoteBlock.element b).
Proof.
  intros note. split; [reflexivity|].
  exact (drawNotes_files_each_note scenario_display NoteBlock.idGenerator 1 note
           eq_refl).
Defined.

Lemma drawNotes_adds_one_entry_per_note_witness :
  reachable (example_drawn.1, example_drawn.2)
  ∧ size (NoteDisplay.blocks
            (NoteDisplay.drawNotes example_drawn.1 example_drawn.2).1)
    = (size (NoteDisplay.blocks example_drawn.1) + 1)%nat
  ∧ size (NoteDisplay.notes
            (NoteDisplay.drawNotes example_drawn.1 example_drawn.2).1)
    = (size (NoteDisplay.notes example_drawn.1) + 1)%nat.
Proof.
  assert (reachable (example_drawn.1, example_drawn.2)) as Hr
    by exact (reachable_pair _ example_drawn_reachable).
  split; [exact Hr|].
  exact (drawNotes_adds_one_entry_per_note example_drawn.1 example_drawn.2 Hr).
Defined.

Lemma drawNotes_nothing_to_draw_witness :
  let d := NoteDisplay.new DOM.createElement_div {| fixed_notes := [] |} None None in
  NoteDisplay.drawNotes d NoteBlock.idGenerator = (d, NoteBlock.idGenerator).
Proof.
  intros d.
  exact (drawNotes_nothing_to_draw d NoteBlock.idGenerator {| fixed_notes := [] |}
           eq_refl).
Defined.

Lemma keys_are_issued_ids_witness :
  reachable (scenario_drawn.1, scenario_drawn.2)
  ∧ (∀ k b, NoteDisplay.blocks scenario_drawn.1 !! k = Some b →
            k = of_nat (NoteBlock.id b))
  ∧ (∀ k, is_Some (NoteDisplay.blocks scenario_drawn.1 !! k)
          ∨ is_Some (NoteDisplay.notes scenario_drawn.1 !! k) →
          ∃ i, k = of_nat i ∧ issued scenario_drawn.2 i)
  ∧ NoteDisplay.notes scenario_drawn.1 !! NaN = None
  ∧ NoteDisplay.notes scenario_drawn.1 !! of_nat (NoteBlock.next scenario_drawn.2).1
    = None.
Proof.
  assert (reachable (scenario_drawn.1, scenario_drawn.2)) as Hr
    by exact (reachable_pair _ scenario_drawn_reachable).
  split; [exact Hr|].
  exact (keys_are_issued_ids scenario_drawn.1 scenario_drawn.2 Hr).
Defined.


Lemma drag_then_drop_witness :
  let drop :=
    {| DOM.dataTransfer :=
         DOM.dataTransfer
           (NoteBlock.dragListener scenario_block (drop_event None (of_Z 0)));
       DOM.clientX := of_Z 120;
       DOM.defaultPrevented := true |} in
  (reachable (scenario_drawn.1, scenario_drawn.2)
   ∧ NoteDisplay.blocks scenario_drawn.1 !! of_nat 1 = Some scenario_block)
  ∧ ∃ note,
      NoteDisplay.notes scenario_drawn.1 !! of_nat 1 = Some note
      ∧ calls (NoteDisplay.sequence (NoteDisplay.dropListener scenario_drawn.1 drop))
        = (calls (NoteDisplay.sequence scenario_drawn.1)
           ++ [MoveNote (Some note)
                 (Some (js_div (js_sub (of_Z 120) (of_Z 40)) (of_Z 40)))])%list.
Proof.
  intros drop.
  assert (reachable (scenario_drawn.1, scenario_drawn.2)) as Hr
    by exact (reachable_pair _ scenario_drawn_reachable).
  assert (NoteDisplay.blocks scenario_drawn.1 !! of_nat 1 = Some scenario_block)
    as Hb by (vm_compute; reflexivity).
  split; [by split|].
  exact (drag_then_drop scenario_drawn.1 scenario_drawn.2 (of_nat 1) scenario_block
           (drop_event None (of_Z 0)) drop Hr Hb eq_refl).
Defined.

Lemma drop_in_place_witness :
  let note := {| Note.start := of_Z 2; Note.length := of_Z 2; Note.number := of_Z 62 |} in
  let drop :=
    drop_event (Some "1")
      (ToNumber (NoteBlock.left (NoteDisplay.block_args scenario_drawn.1 note))) in
  reachable (scenario_drawn.1, scenario_drawn.2)
  ∧ calls (NoteDisplay.sequence (NoteDisplay.dropListener scenario_drawn.1 drop))
    = (calls (NoteDisplay.sequence scenario_drawn.1)
       ++ [MoveNote
             (NoteDisplay.notes scenario_drawn.1
                !! Number (DOM.getData (DOM.dataTransfer drop) "application/note-id"))
             (Some (of_Z 2))])%list.
Proof.
  intros note drop.
  assert (reachable (scenario_drawn.1, scenario_drawn.2)) as Hr
    by exact (reachable_pair _ scenario_drawn_reachable).
  split; [exact Hr|].
  exact (drop_in_place scenario_drawn.1 scenario_drawn.2 note (Qc_of_Z 2) drop
           Hr eq_refl eq_refl).
Defined.

Lemma draw_drag_drop_witness :
  let note := {| Note.start := of_Z 2; Note.length := of_Z 2; Note.number := of_Z 62 |} in
  (reachable (scenario_display, NoteBlock.idGenerator)
   ∧ (getNotes (NoteDisplay.sequence scenario_display) (of_Z 0) (of_Z 8)).1 !! 1%nat
     = Some note
   ∧ DOM.children (NoteDisplay.surface scenario_drawn.1) !! 1%nat
     = Some (NoteBlock.element scenario_block))
  ∧ ∃ b : NoteBlock.t,
      NoteBlock.element b = NoteBlock.element scenario_block
      ∧ DOM.listeners (NoteBlock.element scenario_block)
        = [("dragstart", DOM.dragListener (NoteBlock.id b))]
      ∧ ∀ dragstart drop : DOM.DragEvent,
          DOM.dataTransfer drop
          = DOM.dataTransfer (NoteBlock.dragListener b dragstart) →
          calls (NoteDisplay.sequence (NoteDisplay.dropListener scenario_drawn.1 drop))
          = (calls (NoteDisplay.sequence scenario_display)
             ++ [GetNotes (of_Z 0) (of_Z 8);
                 MoveNote (Some note)
                   (Some (js_div (js_sub (DOM.clientX drop) (of_Z 40))
                            (of_Z 40)))])%list.
Proof.
  intros note.
  assert (reachable (scenario_display, NoteBlock.idGenerator)) as Hr
    by apply reachable_new.
  assert (DOM.children (NoteDisplay.surface scenario_drawn.1) !! 1%nat
          = Some (NoteBlock.element scenario_block)) as Hc
    by (vm_compute; reflexivity).
  split; [by split_and!|].
  exact (draw_drag_drop scenario_display NoteBlock.idGenerator 1 note
           (NoteBlock.element scenario_block) Hr eq_refl Hc).
Defined.

